(** * go-axios: configuration merge, interceptor pipeline and dispatch

    A shallow embedding of the [axios] package (config.go, client.go with
    the interceptor manager, the response and error files) and the proofs
    of the properties its specification states.

    Go maps are reference objects: [Config.Headers] and [Config.Params]
    are modelled as optional locations (nil or a pointer) into a store of
    map objects, so that in-place mutation and aliasing are visible.
    [range] over a map visits the keys in an unspecified order that may
    change from one loop to the next; every loop therefore takes a seed
    from which the visiting order is computed, and every permutation of
    the keys is the order of some seed. A loop reads the entry of a key
    when it comes to it; entries created while the loop runs are not
    visited (Go allows a loop to visit or to skip them).

    A Go [int] is modelled as [Z]: the package compares status codes and
    timeouts and does no arithmetic on them. A function with results
    [(pointer, error)] returns an optional value and an optional error, or
    panics. Interceptors and the transport are functions that may change
    the world outside the package, which is threaded through every call. *)

From Stdlib Require Import ZArith.
From Stdlib.Strings Require Import String Ascii Byte.
From stdpp Require Import base option list strings pretty gmap fin_maps.

Local Open Scope Z_scope.

(** ** Header keys (net/textproto) *)

Definition isLower (c : ascii) : bool :=
  ((97 <=? nat_of_ascii c) && (nat_of_ascii c <=? 122))%nat.

Definition isUpper (c : ascii) : bool :=
  ((65 <=? nat_of_ascii c) && (nat_of_ascii c <=? 90))%nat.

Definition isDigit (c : ascii) : bool :=
  ((48 <=? nat_of_ascii c) && (nat_of_ascii c <=? 57))%nat.

(** The token bytes of RFC 7230: digits, letters and
    [! # $ % & ' * + - . ^ _ ` | ~]. *)
Definition validHeaderFieldByte (c : ascii) : bool :=
  isDigit c || isLower c || isUpper c ||
  existsb (Ascii.eqb c)
    ["!"; "#"; "$"; "%"; "&"; "'"; "*"; "+"; "-"; "."; "^"; "_"; "`"; "|"; "~"]%char.

(** A letter is put in upper case where one is due (at the start and
    after a dash) and in lower case elsewhere. *)
Definition canonicalByte (upper : bool) (c : ascii) : ascii :=
  if upper && isLower c then ascii_of_nat (nat_of_ascii c - 32)
  else if negb upper && isUpper c then ascii_of_nat (nat_of_ascii c + 32)
  else c.

Fixpoint canonicalize (upper : bool) (s : string) : string :=
  match s with
  | EmptyString => EmptyString
  | String c s' =>
      let c' := canonicalByte upper c in
      String c' (canonicalize (Ascii.eqb c' "-") s')
  end.

(** [textproto.CanonicalMIMEHeaderKey]: a key holding a byte that is not a
    token byte is returned unchanged. *)
Definition CanonicalMIMEHeaderKey (s : string) : string :=
  if forallb validHeaderFieldByte (list_ascii_of_string s)
  then canonicalize true s else s.

(** ** http.Header: map[string][]string *)

Abbreviation Header := (gmap string (list string)).
Abbreviation ParamMap := (gmap string string).

(** [h.Set(key, value)]: the entry of the canonical key becomes the
    one-element list. *)
Definition Header_Set (h : Header) (key value : string) : Header :=
  <[CanonicalMIMEHeaderKey key := [value]]> h.

(** [h.Add(key, value)]: the value is appended to the entry of the
    canonical key. *)
Definition Header_Add (h : Header) (key value : string) : Header :=
  <[CanonicalMIMEHeaderKey key :=
      default [] (h !! CanonicalMIMEHeaderKey key) ++ [value]]> h.

(** [h.Values(key)]: the entry of the canonical key, nil when absent. *)
Definition Header_Values (h : Header) (key : string) : list string :=
  default [] (h !! CanonicalMIMEHeaderKey key).

(** The entry of a raw key, nil when absent. *)
Definition entry (h : Header) (K : string) : list string := default [] (h !! K).

(** What the configured headers contribute to key [K], in visiting order. *)
Definition contribution (m : Header) (keys : list string) (K : string)
    : list string :=
  flat_map (fun key => if decide (CanonicalMIMEHeaderKey key = K)
                       then entry m key else []) keys.

(** ** The order of a range loop over a map *)

(** The next key is picked at position [s mod length l] among the keys
    not visited yet; a seed that runs out leaves the rest in place. *)
Fixpoint pickOrder {A : Type} (seed : list nat) (l : list A) : list A :=
  match seed with
  | [] => l
  | s :: seed' =>
      match l !! (s mod length l)%nat with
      | None => []
      | Some x => x :: pickOrder seed' (delete (s mod length l)%nat l)
      end
  end.

Definition rangeKeys {V : Type} (seed : list nat) (m : gmap string V) : list string :=
  pickOrder seed (map_to_list m).*1.

(** ** The store of map objects *)

Definition loc := nat.

(** The map objects of one type, by address. *)
Abbreviation Objs V := (gmap loc (gmap string V)).

(** The map behind a pointer. *)
Definition deref {V : Type} (objs : Objs V) (l : loc) : gmap string V :=
  default ∅ (objs !! l).

(** [http.Header{}] and [make(map[string]string)]: a new empty map object. *)
Definition alloc {V : Type} (objs : Objs V) : Objs V * loc :=
  let l := fresh (dom objs) in (<[l := ∅]> objs, l).

(** Maps of different types never share an object. *)
Record Heap := mkHeap {
  headerObjs : Objs (list string);
  paramObjs : Objs string
}.

Definition emptyHeap : Heap := mkHeap ∅ ∅.

Definition hdr (hp : Heap) (l : loc) : Header := deref (headerObjs hp) l.
Definition prm (hp : Heap) (l : loc) : ParamMap := deref (paramObjs hp) l.

(** ** config.go *)

Record Config := mkConfig {
  Method : string;
  URL : string;
  Headers : option loc;
  Params : option loc;
  Body : option (list byte);
  Timeout : Z
}.

(** One iteration of the loop of [mergeHeaders]: the entry of [key] is read
    from the map being ranged over, and every value of it is [Set] on the
    default map. *)
Definition mergeHeaders_step (d u : loc) (objs : Objs (list string))
    (key : string) : Objs (list string) :=
  match deref objs u !! key with
  | None => objs
  | Some values =>
      fold_left (fun objs value => <[d := Header_Set (deref objs d) key value]> objs)
                values objs
  end.

Definition mergeHeaders (seed : list nat) (objs : Objs (list string))
    (defaultHeaders userHeaders : option loc) : Objs (list string) * loc :=
  let '(objs, d) :=
    match defaultHeaders with
    | None => alloc objs
    | Some d => (objs, d)
    end in
  match userHeaders with
  | None => (objs, d)
  | Some u =>
      (fold_left (mergeHeaders_step d u) (rangeKeys seed (deref objs u)) objs, d)
  end.

Definition mergeParams_step (d u : loc) (objs : Objs string) (key : string)
    : Objs string :=
  match deref objs u !! key with
  | None => objs
  | Some value => <[d := <[key := value]> (deref objs d)]> objs
  end.

Definition mergeParams (seed : list nat) (objs : Objs string)
    (defaultParams userParams : option loc) : Objs string * loc :=
  let '(objs, d) :=
    match defaultParams with
    | None => alloc objs
    | Some d => (objs, d)
    end in
  match userParams with
  | None => (objs, d)
  | Some u =>
      (fold_left (mergeParams_step d u) (rangeKeys seed (deref objs u)) objs, d)
  end.

Definition mergeConfig (seedH seedP : list nat) (hp : Heap)
    (defaultConfig userConfig : Config) : Heap * Config :=
  let finalMethod :=
    if decide (Method userConfig ≠ ""%string) then Method userConfig
    else Method defaultConfig in
  let finalURL :=
    if decide (URL userConfig ≠ ""%string) then URL userConfig
    else URL defaultConfig in
  let '(hobjs, finalHeaders) :=
    mergeHeaders seedH (headerObjs hp) (Headers defaultConfig) (Headers userConfig) in
  let '(pobjs, finalParams) :=
    mergeParams seedP (paramObjs hp) (Params defaultConfig) (Params userConfig) in
  let finalBody :=
    match Body userConfig with
    | Some b => Some b
    | None => Body defaultConfig
    end in
  let finalTimeout :=
    if decide (Timeout userConfig ≠ 0) then Timeout userConfig
    else Timeout defaultConfig in
  (mkHeap hobjs pobjs,
   mkConfig finalMethod finalURL (Some finalHeaders) (Some finalParams)
            finalBody finalTimeout).

(** The value of a configuration: its scalar fields and the contents of
    the maps its pointers lead to. *)
Record ConfigValue := mkConfigValue {
  cvMethod : string;
  cvURL : string;
  cvHeaders : option Header;
  cvParams : option ParamMap;
  cvBody : option (list byte);
  cvTimeout : Z
}.

(** The header map of a configuration, empty for a nil map. *)
Definition configHeaders (hp : Heap) (c : Config) : Header :=
  match Headers c with
  | Some l => hdr hp l
  | None => ∅
  end.

Definition configValue (hp : Heap) (c : Config) : ConfigValue :=
  mkConfigValue (Method c) (URL c) (hdr hp <$> Headers c) (prm hp <$> Params c)
                (Body c) (Timeout c).

(** ** The loops of the merge, on map contents

    What the loops of [mergeHeaders] and [mergeParams] do to the contents
    of the default map. *)

Definition setValues (h : Header) (key : string) (values : list string) : Header :=
  fold_left (fun h value => Header_Set h key value) values h.

Definition putAll (m : ParamMap) (keys : list string) (p : ParamMap) : ParamMap :=
  fold_left
    (fun p key =>
       match m !! key with
       | None => p
       | Some value => <[key := value]> p
       end) keys p.

(** The entry that the values of [key] leave behind: the last value alone,
    under the canonical key. *)
Definition lastSet (m : Header) (key : string) : Header :=
  match m !! key with
  | Some values =>
      match last values with
      | Some value => {[CanonicalMIMEHeaderKey key := [value]]}
      | None => ∅
      end
  | None => ∅
  end.

Fixpoint lastSets (m : Header) (keys : list string) : Header :=
  match keys with
  | [] => ∅
  | key :: keys => lastSets m keys ∪ lastSet m key
  end.

(** A header map in which every key with values has the last of them,
    alone, under its canonical form. *)
Definition settled (m : Header) : Prop :=
  forall key values value,
    m !! key = Some values -> last values = Some value ->
    m !! CanonicalMIMEHeaderKey key = Some [value].

(** The canonical forms of the keys of a header map. *)
Definition canonicalKeys (m : Header) : list string :=
  CanonicalMIMEHeaderKey <$> (map_to_list m).*1.

(** ** Sample configurations *)
Module Sample.
Local Open Scope string_scope.

(** Header maps 0 to 4 and parameter maps 0 and 1. *)
Definition store : Heap :=
  mkHeap {[ 0%nat := {[ "A" := ["1"] ]};
            1%nat := {[ "A" := ["2"] ]};
            2%nat := {[ "A" := ["2"; "3"] ]};
            3%nat := {[ "a" := ["1"]; "A" := ["2"] ]};
            4%nat := {[ "accept" := ["text/html"]; "X-Id" := ["1"; "2"] ]} ]}
         {[ 0%nat := {[ "p" := "1" ]};
            1%nat := {[ "p" := "2" ]} ]}.

Definition base : Config :=
  mkConfig "GET" "http://example.test" (Some 0%nat) (Some 0%nat) None 10.
Definition override : Config :=
  mkConfig "" "" (Some 1%nat) (Some 1%nat) None 0.
Definition multi : Config :=
  mkConfig "" "" (Some 2%nat) None None 0.
Definition colliding : Config :=
  mkConfig "" "" (Some 3%nat) None None 0.
Definition mixed : Config :=
  mkConfig "" "" (Some 4%nat) (Some 1%nat) None 0.
Definition bare : Config :=
  mkConfig "GET" "http://example.test" None None None 0.
Definition post : Config :=
  mkConfig "POST" "" None None None 0.
End Sample.

(** ** Errors and results *)

(** The error file: [RequestError]. *)
Record RequestError := mkRequestError {
  re_StatusCode : Z;
  re_Method : string;
  re_URL : string;
  re_Message : string;
  re_Body : string
}.

(** Go [error] values, as far as the package tells them apart. *)
Inductive GoError :=
  | ErrForeign (msg : string)
      (** an error made outside the package: by an interceptor, by
          [http.NewRequestWithContext], by the transport or by a read *)
  | ErrRequest (e : RequestError)
      (** a pointer to a [RequestError] *)
  | Errorf (context : string) (cause : GoError)
      (** [fmt.Errorf("<context>: %w", cause)] *)
  | ErrorfIdx (stage : string) (idx : nat) (cause : GoError).
      (** [fmt.Errorf("<stage> interceptor %d failed: %w", idx, cause)] *)

(** [errors.Unwrap]. *)
Definition Unwrap (e : GoError) : option GoError :=
  match e with
  | Errorf _ cause | ErrorfIdx _ _ cause => Some cause
  | _ => None
  end.

Definition newline : string := String (ascii_of_nat 10) EmptyString.

(** The [Error] method of [RequestError]. *)
Definition RequestError_Error (e : RequestError) : string :=
  ("request to " +:+ re_Method e +:+ " " +:+ re_URL e +:+
   " failed with status code " +:+ pretty (re_StatusCode e) +:+ ": " +:+
   re_Message e +:+ newline +:+ "Response Body: " +:+ re_Body e)%string.

(** The message of an error. *)
Fixpoint Error (e : GoError) : string :=
  match e with
  | ErrForeign msg => msg
  | ErrRequest r => RequestError_Error r
  | Errorf context cause => (context +:+ ": " +:+ Error cause)%string
  | ErrorfIdx stage idx cause =>
      (stage +:+ " interceptor " +:+ pretty idx +:+ " failed: " +:+ Error cause)%string
  end.

(** What a call of a function with a pointer result and an [error] result
    does: it returns the pair, or it panics. *)
Inductive Outcome (T : Type) :=
  | Returns (v : option T) (err : option GoError)
  | Panics.
Arguments Returns {T} v err.
Arguments Panics {T}.

(** What [io.ReadAll] finds in a body: the bytes read and the read error,
    if any. *)
Record BodyStream := mkBodyStream {
  bs_data : list byte;
  bs_err : option GoError
}.

(** The response file: [Response]. *)
Record Response := mkResponse {
  Status : string;
  StatusCode : Z;
  r_Body : list byte;
  r_Headers : Header
}.

Definition IsSuccess (r : Response) : bool :=
  (200 <=? StatusCode r) && (StatusCode r <? 300).

Section Dispatch.
(** [Ctx] is [context.Context]; [W] is everything outside the package
    that an interceptor or the transport can read and change. *)
Context {Ctx W : Type}.

(** The fields of [http.Request] and [http.Response] the package uses. *)
Record HttpRequest := mkHttpRequest {
  req_Context : Ctx;
  req_Method : string;
  req_URL : string;
  req_Header : option Header;
  req_Body : option (list byte)
}.

Record HttpResponse := mkHttpResponse {
  hr_Status : string;
  hr_StatusCode : Z;
  hr_Header : Header;
  hr_Body : BodyStream;
  hr_Request : HttpRequest
}.

(** [http.NewRequestWithContext] and [http.StatusText]. *)
Variable NewRequestWithContext :
  Ctx -> string -> string -> option (list byte) -> HttpRequest + GoError.
Variable StatusText : Z -> string.

(** *** The error file *)

Definition HandleResponseError (resp : HttpResponse) : option GoError :=
  if decide (400 ≤ hr_StatusCode resp) then
    let responseBody :=
      match bs_err (hr_Body resp), bs_data (hr_Body resp) with
      | None, _ :: _ => string_of_list_byte (bs_data (hr_Body resp))
      | _, _ => ""%string
      end in
    Some (ErrRequest
      (mkRequestError (hr_StatusCode resp)
                      (req_Method (hr_Request resp))
                      (req_URL (hr_Request resp))
                      (StatusText (hr_StatusCode resp))
                      responseBody))
  else None.

(** *** The response file *)

Definition ParseResponse (resp : HttpResponse) : Outcome Response :=
  match bs_err (hr_Body resp) with
  | Some err => Returns None (Some (Errorf "reading response body" err))
  | None =>
      Returns (Some (mkResponse (hr_Status resp) (hr_StatusCode resp)
                                (bs_data (hr_Body resp)) (hr_Header resp)))
              None
  end.

(** *** The interceptor manager *)

(** A nil function is [None]. An interceptor function returns its pair
    of a pointer and an error, and may change the world. *)
Record Interceptor := mkInterceptor {
  icRequest :
    option (W -> option HttpRequest -> W * (option HttpRequest * option GoError));
  icResponse :
    option (W -> option Response -> W * (option Response * option GoError))
}.

Record InterceptorManager := mkInterceptorManager {
  interceptors : list Interceptor
}.

Definition NewInterceptorManager : InterceptorManager :=
  mkInterceptorManager [].

Definition AddInterceptor (im : InterceptorManager) (i : Interceptor)
    : InterceptorManager :=
  mkInterceptorManager (interceptors im ++ [i]).

(** The loop of [ApplyRequestInterceptors] from index [idx] on. Calling
    a nil function panics. *)
Fixpoint applyRequestFrom (idx : nat) (ics : list Interceptor) (w : W)
    (req : option HttpRequest) : W * Outcome HttpRequest :=
  match ics with
  | [] => (w, Returns req None)
  | interceptor :: rest =>
      match icRequest interceptor with
      | None => (w, Panics)
      | Some f =>
          let '(w, (req, err)) := f w req in
          match err with
          | Some err => (w, Returns None (Some (ErrorfIdx "request" idx err)))
          | None => applyRequestFrom (S idx) rest w req
          end
      end
  end.

Definition ApplyRequestInterceptors (im : InterceptorManager) (w : W)
    (req : option HttpRequest) : W * Outcome HttpRequest :=
  applyRequestFrom 0 (interceptors im) w req.

Fixpoint applyResponseFrom (idx : nat) (ics : list Interceptor) (w : W)
    (resp : option Response) : W * Outcome Response :=
  match ics with
  | [] => (w, Returns resp None)
  | interceptor :: rest =>
      match icResponse interceptor with
      | None => (w, Panics)
      | Some f =>
          let '(w, (resp, err)) := f w resp in
          match err with
          | Some err => (w, Returns None (Some (ErrorfIdx "response" idx err)))
          | None => applyResponseFrom (S idx) rest w resp
          end
      end
  end.

Definition ApplyResponseInterceptors (im : InterceptorManager) (w : W)
    (resp : option Response) : W * Outcome Response :=
  applyResponseFrom 0 (interceptors im) w resp.

(** *** The client *)

(** [httpClient] is the [Do] method of the [http.Client]: it yields a
    response or an error, never both, and may change the world. The
    transport fills in the [Request] field of its responses. *)
Record Client := mkClient {
  httpClient : W -> HttpRequest -> W * (HttpResponse + GoError);
  config : Config;
  interceptorManager : option InterceptorManager
}.

(** The [http.Client] with its transport and timeout is taken as given. *)
Definition NewClient (transport : W -> HttpRequest -> W * (HttpResponse + GoError))
    (cfg : Config) : Client :=
  mkClient transport cfg (Some NewInterceptorManager).

Definition GetInterceptorManager (c : Client) : option InterceptorManager :=
  interceptorManager c.

(** [c.GetInterceptorManager().AddInterceptor(i)]: the client and the
    caller share the manager through its pointer, so registering changes
    the manager of the client. *)
Definition register (c : Client) (i : Interceptor) : Client :=
  mkClient (httpClient c) (config c)
           (im ← GetInterceptorManager c; Some (AddInterceptor im i)).

Definition prepareRequestBody (cfg : Config)
    : option (list byte) * option GoError :=
  (Body cfg, None).

(** The request with the contents of its header map replaced. *)
Definition withHeader (req : HttpRequest) (h : Header) : HttpRequest :=
  mkHttpRequest (req_Context req) (req_Method req) (req_URL req) (Some h)
                (req_Body req).

(** [req.Header.Add(key, value)]; writing to a nil header map panics
    ([None]). *)
Definition addHeader (key : string) (req : option HttpRequest) (value : string)
    : option HttpRequest :=
  req ← req;
  h ← req_Header req;
  Some (withHeader req (Header_Add h key value)).

(** The loop that copies the headers of the final configuration onto
    the request. *)
Definition copyHeaders (seed : list nat) (hp : Heap) (finalConfig : Config)
    (req : HttpRequest) : option HttpRequest :=
  match Headers finalConfig with
  | None => Some req
  | Some l =>
      fold_left
        (fun req key =>
           match hdr hp l !! key with
           | None => req
           | Some values => fold_left (addHeader key) values req
           end)
        (rangeKeys seed (hdr hp l)) (Some req)
  end.

(** [Request] up to the call of the transport (the merge, the body, the
    new request, the request interceptors, the header loop): the result
    returned early, or the request that is sent. A nil request left by the
    interceptors panics, at the first [req.Header.Add] or else in
    [httpClient.Do]. *)
Definition Request_prepare (seedH seedP seedC : list nat) (c : Client)
    (ctx : Ctx) (cfg : Config) (hp : Heap) (w : W)
    : Heap * W * (Outcome Response + HttpRequest) :=
  let '(hp, finalConfig) := mergeConfig seedH seedP hp (config c) cfg in
  match prepareRequestBody finalConfig with
  | (_, Some err) =>
      (hp, w, inl (Returns None (Some (Errorf "preparing request body" err))))
  | (body, None) =>
      match NewRequestWithContext ctx (Method finalConfig) (URL finalConfig) body with
      | inr err =>
          (hp, w, inl (Returns None (Some (Errorf "creating request" err))))
      | inl req =>
          let '(w, staged) :=
            match interceptorManager c with
            | Some im => ApplyRequestInterceptors im w (Some req)
            | None => (w, Returns (Some req) None)
            end in
          match staged with
          | Panics => (hp, w, inl Panics)
          | Returns _ (Some err) =>
              (hp, w, inl (Returns None
                             (Some (Errorf "applying request interceptors" err))))
          | Returns None None => (hp, w, inl Panics)
          | Returns (Some req) None =>
              match copyHeaders seedC hp finalConfig req with
              | None => (hp, w, inl Panics)
              | Some req => (hp, w, inr req)
              end
          end
      end
  end.

(** [Request] from the call of the transport on: the transport error,
    the status check, the parsed response. *)
Definition Request_send (c : Client) (w : W) (req : HttpRequest)
    : W * Outcome Response :=
  let '(w, sent) := httpClient c w req in
  match sent with
  | inr err => (w, Returns None (Some (Errorf "executing request" err)))
  | inl resp =>
      if decide (400 ≤ hr_StatusCode resp)
      then (w, Returns None (HandleResponseError resp))
      else (w, ParseResponse resp)
  end.

Definition Request (seedH seedP seedC : list nat) (c : Client)
    (ctx : Ctx) (cfg : Config) (hp : Heap) (w : W)
    : Heap * W * Outcome Response :=
  let '(hp, w, prepared) := Request_prepare seedH seedP seedC c ctx cfg hp w in
  match prepared with
  | inl early => (hp, w, early)
  | inr req => let '(w, result) := Request_send c w req in (hp, w, result)
  end.

Definition CancelableRequest (seedH seedP seedC : list nat) (c : Client)
    (ctx : Ctx) (cfg : Config) (hp : Heap) (w : W)
    : Heap * W * Outcome Response :=
  Request seedH seedP seedC c ctx cfg hp w.

End Dispatch.

Arguments HttpRequest : clear implicits.
Arguments HttpResponse : clear implicits.
Arguments Interceptor : clear implicits.
Arguments InterceptorManager : clear implicits.
Arguments Client : clear implicits.

(** ** The fold of a stage, in the words of the specification

    The functions of the interceptors are applied left to right in
    registration order, each to the world and to the value that the one
    before left, and none of them returns an error. *)
Section StageRuns.
Context {Ctx W : Type}.

Inductive requestRun :
    list (Interceptor Ctx W) -> W -> option (HttpRequest Ctx) ->
    W -> option (HttpRequest Ctx) -> Prop :=
  | requestRun_nil w req : requestRun [] w req w req
  | requestRun_cons i ics f w req w1 req1 w2 req2 :
      icRequest i = Some f ->
      f w req = (w1, (req1, None)) ->
      requestRun ics w1 req1 w2 req2 ->
      requestRun (i :: ics) w req w2 req2.

Inductive responseRun :
    list (Interceptor Ctx W) -> W -> option Response ->
    W -> option Response -> Prop :=
  | responseRun_nil w resp : responseRun [] w resp w resp
  | responseRun_cons i ics f w resp w1 resp1 w2 resp2 :
      icResponse i = Some f ->
      f w resp = (w1, (resp1, None)) ->
      responseRun ics w1 resp1 w2 resp2 ->
      responseRun (i :: ics) w resp w2 resp2.
End StageRuns.

(** ** Mock collaborators, after the package's tests

    The world is a log of the calls that were made; contexts carry
    nothing. *)
Module Mock.
Local Open Scope string_scope.

Definition World : Type := list string.

Definition log (w : World) (name : string) : World := (w ++ [name])%list.

Definition newRequest (ctx : unit) (method url : string)
    (body : option (list byte)) : HttpRequest unit + GoError :=
  inl (mkHttpRequest ctx (if decide (method = "") then "GET" else method)
                     url (Some ∅) body).

(** The table of [http.StatusText]; a code without entry has the empty
    text. *)
Definition statusTexts : list (Z * string) :=
  [(100, "Continue"); (101, "Switching Protocols"); (102, "Processing");
   (103, "Early Hints");
   (200, "OK"); (201, "Created"); (202, "Accepted");
   (203, "Non-Authoritative Information"); (204, "No Content");
   (205, "Reset Content"); (206, "Partial Content"); (207, "Multi-Status");
   (208, "Already Reported"); (226, "IM Used");
   (300, "Multiple Choices"); (301, "Moved Permanently"); (302, "Found");
   (303, "See Other"); (304, "Not Modified"); (305, "Use Proxy");
   (307, "Temporary Redirect"); (308, "Permanent Redirect");
   (400, "Bad Request"); (401, "Unauthorized"); (402, "Payment Required");
   (403, "Forbidden"); (404, "Not Found"); (405, "Method Not Allowed");
   (406, "Not Acceptable"); (407, "Proxy Authentication Required");
   (408, "Request Timeout"); (409, "Conflict"); (410, "Gone");
   (411, "Length Required"); (412, "Precondition Failed");
   (413, "Request Entity Too Large"); (414, "Request URI Too Long");
   (415, "Unsupported Media Type"); (416, "Requested Range Not Satisfiable");
   (417, "Expectation Failed"); (418, "I'm a teapot");
   (421, "Misdirected Request"); (422, "Unprocessable Entity");
   (423, "Locked"); (424, "Failed Dependency"); (425, "Too Early");
   (426, "Upgrade Required"); (428, "Precondition Required");
   (429, "Too Many Requests"); (431, "Request Header Fields Too Large");
   (451, "Unavailable For Legal Reasons");
   (500, "Internal Server Error"); (501, "Not Implemented");
   (502, "Bad Gateway"); (503, "Service Unavailable");
   (504, "Gateway Timeout"); (505, "HTTP Version Not Supported");
   (506, "Variant Also Negotiates"); (507, "Insufficient Storage");
   (508, "Loop Detected"); (510, "Not Extended");
   (511, "Network Authentication Required")].

Fixpoint statusTextIn (table : list (Z * string)) (code : Z) : string :=
  match table with
  | [] => ""
  | (known, text) :: table =>
      if decide (known = code) then text else statusTextIn table code
  end.

Definition statusText (code : Z) : string := statusTextIn statusTexts code.

(** A server that answers every request with [code] and an empty body. *)
Definition server (code : Z) (w : World) (req : HttpRequest unit)
    : World * (HttpResponse unit + GoError) :=
  (log w "transport",
   inl (mkHttpResponse (pretty code +:+ " " +:+ statusText code) code ∅
                       (mkBodyStream [] None) req)).

(** A transport whose call is cancelled. *)
Definition canceled (w : World) (req : HttpRequest unit)
    : World * (HttpResponse unit + GoError) :=
  (log w "transport", inr (ErrForeign "context canceled")).

(** A request function that logs [name] and sets a header, as the
    interceptors of the tests do. *)
Definition setting (name key value : string) (w : World)
    (req : option (HttpRequest unit))
    : World * (option (HttpRequest unit) * option GoError) :=
  (log w name,
   (r ← req;
    Some (withHeader r (Header_Set (default ∅ (req_Header r)) key value)),
    None)).

(** A request function that logs [name] and fails. *)
Definition failing (name : string) (w : World)
    (req : option (HttpRequest unit))
    : World * (option (HttpRequest unit) * option GoError) :=
  (log w name, (req, Some (ErrForeign "boom"))).

(** A response function that logs [name] and replaces the body. *)
Definition rewriting (name : string) (body : list byte) (w : World)
    (resp : option Response)
    : World * (option Response * option GoError) :=
  (log w name,
   (r ← resp;
    Some (mkResponse (Status r) (StatusCode r) body (r_Headers r)),
    None)).

Definition failingResponse (name : string) (w : World)
    (resp : option Response)
    : World * (option Response * option GoError) :=
  (log w name, (resp, Some (ErrForeign "boom"))).

Definition requestOnly f : Interceptor unit World :=
  mkInterceptor (Some f) None.
Definition responseOnly f : Interceptor unit World :=
  mkInterceptor None (Some f).

Definition T1 : Interceptor unit World :=
  requestOnly (setting "T1" "Authorization" "Bearer token1").
Definition T2 : Interceptor unit World :=
  requestOnly (setting "T2" "Content-Type" "application/json").
Definition T1fails : Interceptor unit World := requestOnly (failing "T1").
Definition R1 : Interceptor unit World :=
  responseOnly (rewriting "R1" []).
Definition Rfails : Interceptor unit World :=
  responseOnly (failingResponse "Rfails").
Definition R2 : Interceptor unit World :=
  responseOnly (rewriting "R2" []).

Definition get (url : string) : Config :=
  mkConfig "GET" url None None None 0.

(** As in the tests: a client with a timeout of 10 and no other default,
    on which the interceptors are registered one after the other. *)
Definition client (code : Z) (ics : list (Interceptor unit World))
    : Client unit World :=
  fold_left register ics
            (NewClient (server code) (mkConfig "" "" None None None 10)).

Definition plain : HttpRequest unit :=
  mkHttpRequest tt "GET" "http://example.test" (Some ∅) None.

Definition ok200 : Response := mkResponse "200 OK" 200 [] ∅.

(** A store whose map 0 holds one header with two values, and a client
    whose default configuration points to it. *)
Definition tagged : Heap :=
  mkHeap {[ 0%nat := {[ "X-Tag" := ["v1"; "v2"] ]} ]} ∅.

Definition taggedClient (ics : list (Interceptor unit World))
    : Client unit World :=
  mkClient (server 200) (mkConfig "" "" (Some 0%nat) None None 10)
           (Some (mkInterceptorManager ics)).

Definition Ttag : Interceptor unit World :=
  requestOnly (setting "Ttag" "X-Tag" "v0").
End Mock.

(** ** client.go: the transport options and the timeout of the client *)

(** A [time.Duration] is a 64-bit count of nanoseconds. *)
Definition Second : Z := 1000000000.

(** The value of a 64-bit signed integer after an operation that
    overflows wraps around. *)
Definition wrap64 (z : Z) : Z := (z + 2 ^ 63) mod 2 ^ 64 - 2 ^ 63.

Record TransportOptions := mkTransportOptions {
  MaxIdleConns : Z;
  IdleConnTimeout : Z;
  MaxIdleConnsPerHost : Z;
  TLSHandshakeTimeout : Z;
  ExpectContinue : Z
}.

(** The fields of [http.Transport] that [defaultTransport] sets. *)
Record HttpTransport := mkHttpTransport {
  tr_MaxIdleConns : Z;
  tr_IdleConnTimeout : Z;
  tr_MaxIdleConnsPerHost : Z;
  tr_TLSHandshakeTimeout : Z;
  tr_ExpectContinueTimeout : Z
}.

Definition defaultOptions : TransportOptions :=
  mkTransportOptions 100 (90 * Second) 100 (10 * Second) (1 * Second).

Definition defaultTransport (opts : option TransportOptions) : HttpTransport :=
  let opts :=
    match opts with
    | None => defaultOptions
    | Some opts => opts
    end in
  mkHttpTransport (MaxIdleConns opts) (IdleConnTimeout opts)
                  (MaxIdleConnsPerHost opts) (TLSHandshakeTimeout opts)
                  (ExpectContinue opts).

(** The [Timeout] that [NewClient] gives the [http.Client]:
    [time.Duration(config.Timeout) * time.Second], a 64-bit product. *)
Definition NewClient_Timeout (cfg : Config) : Z :=
  wrap64 (Timeout cfg * Second).

(** ** Notions used to state the behaviour of the package *)

(** The parameter map of a configuration, empty for a nil map. *)
Definition configParams (hp : Heap) (c : Config) : ParamMap :=
  match Params c with
  | Some l => prm hp l
  | None => ∅
  end.

(** The configuration with other parameters and another timeout. *)
Definition withParamsTimeout (c : Config) (p : option loc) (t : Z) : Config :=
  mkConfig (Method c) (URL c) (Headers c) p (Body c) t.

(** The error index of a stage, moved up by [n]. *)
Definition shiftIndex {T : Type} (n : nat) (o : Outcome T) : Outcome T :=
  match o with
  | Returns v (Some (ErrorfIdx stage idx cause)) =>
      Returns v (Some (ErrorfIdx stage (n + idx) cause))
  | _ => o
  end.

(** The errors that [Request] returns, by the step that failed. *)
Inductive RequestFailure : GoError -> Prop :=
  | CreatingFailed cause :
      RequestFailure (Errorf "creating request" cause)
  | InterceptorFailed idx cause :
      RequestFailure
        (Errorf "applying request interceptors" (ErrorfIdx "request" idx cause))
  | TransportFailed cause :
      RequestFailure (Errorf "executing request" cause)
  | StatusFailed e :
      400 ≤ re_StatusCode e -> RequestFailure (ErrRequest e)
  | ReadingFailed cause :
      RequestFailure (Errorf "reading response body" cause).

(** [sub] occurs in [s]. *)
Definition occursIn (sub s : string) : Prop :=
  exists before after, s = (before +:+ sub +:+ after)%string.

(** * Proofs *)

(** ** The interceptor pipeline *)

Section PipelineFacts.
Context {Ctx W : Type}.
Implicit Types (ics pre post : list (Interceptor Ctx W)) (w : W).

Lemma applyRequestFrom_app idx pre post w req :
  applyRequestFrom idx (pre ++ post) w req =
  match applyRequestFrom idx pre w req with
  | (w1, Returns req1 None) => applyRequestFrom (idx + length pre) post w1 req1
  | stopped => stopped
  end.
Proof.
  revert idx w req. induction pre as [|i pre IH]; intros idx w req; simpl.
  - by rewrite Nat.add_0_r.
  - destruct (icRequest i) as [f|]; [|done].
    destruct (f w req) as [w1 [req1 [e|]]]; [done|].
    rewrite IH. by replace (S idx + length pre)%nat with (idx + S (length pre))%nat by lia.
Qed.

Lemma applyResponseFrom_app idx pre post w resp :
  applyResponseFrom idx (pre ++ post) w resp =
  match applyResponseFrom idx pre w resp with
  | (w1, Returns resp1 None) => applyResponseFrom (idx + length pre) post w1 resp1
  | stopped => stopped
  end.
Proof.
  revert idx w resp. induction pre as [|i pre IH]; intros idx w resp; simpl.
  - by rewrite Nat.add_0_r.
  - destruct (icResponse i) as [f|]; [|done].
    destruct (f w resp) as [w1 [resp1 [e|]]]; [done|].
    rewrite IH. by replace (S idx + length pre)%nat with (idx + S (length pre))%nat by lia.
Qed.

(** The request stage reads only the request halves. *)
Lemma applyRequestFrom_ext idx ics ics' w req :
  Forall2 (fun i i' => icRequest i = icRequest i') ics ics' ->
  applyRequestFrom idx ics w req = applyRequestFrom idx ics' w req.
Proof.
  intros HF. revert idx w req.
  induction HF as [|i i' ics ics' Hi _ IH]; intros idx w req; simpl; [done|].
  rewrite <- Hi. destruct (icRequest i) as [f|]; [|done].
  destruct (f w req) as [w1 [req1 [e|]]]; [done|]. apply IH.
Qed.

(** A nil function panics wherever it stands in the registry, once the
    interceptors before it have returned without error. *)
Lemma missing_function_panics pre i post w :
  (forall req w1 req1,
      ApplyRequestInterceptors (mkInterceptorManager pre) w req
      = (w1, Returns req1 None) ->
      icRequest i = None ->
      ApplyRequestInterceptors (mkInterceptorManager (pre ++ i :: post)) w req
      = (w1, Panics)) /\
  (forall resp w1 resp1,
      ApplyResponseInterceptors (mkInterceptorManager pre) w resp
      = (w1, Returns resp1 None) ->
      icResponse i = None ->
      ApplyResponseInterceptors (mkInterceptorManager (pre ++ i :: post)) w resp
      = (w1, Panics)).
Proof.
  unfold ApplyRequestInterceptors, ApplyResponseInterceptors. simpl. split.
  - intros req w1 req1 Hpre Hi. rewrite applyRequestFrom_app, Hpre. simpl.
    by rewrite Hi.
  - intros resp w1 resp1 Hpre Hi. rewrite applyResponseFrom_app, Hpre. simpl.
    by rewrite Hi.
Qed.

(** C1. An interceptor whose request function is nil is not skipped by
    [ApplyRequestInterceptors]: reaching it panics, whatever the request
    and whatever interceptors follow; likewise a nil response function in
    [ApplyResponseInterceptors]. *)
Theorem nil_transform_panics :
  (forall respF post w (req : option (HttpRequest Ctx)),
      ApplyRequestInterceptors
        (mkInterceptorManager (mkInterceptor None respF :: post)) w req
      = (w, Panics)) /\
  (forall reqF post w (resp : option Response),
      ApplyResponseInterceptors
        (mkInterceptorManager (@mkInterceptor Ctx W reqF None :: post)) w resp
      = (w, Panics)).
Proof. split; reflexivity. Qed.

Lemma applyRequestFrom_run idx ics w req w1 req1 :
  applyRequestFrom idx ics w req = (w1, Returns req1 None) <->
  requestRun ics w req w1 req1.
Proof.
  split.
  - revert idx w req. induction ics as [|i ics IH]; intros idx w req.
    + intros [= <- <-]. constructor.
    + cbn [applyRequestFrom]. destruct (icRequest i) as [f|] eqn:Hf; [|done].
      destruct (f w req) as [wa [reqa [e|]]] eqn:Hcall; [done|].
      intros Hrest. by eapply requestRun_cons; [| |eapply IH].
  - intros Hrun. revert idx.
    induction Hrun as [|i ics f w req wa reqa w2 req2 Hf Hcall _ IH]; intros idx.
    + done.
    + cbn [applyRequestFrom]. by rewrite Hf, Hcall.
Qed.

Lemma applyResponseFrom_run idx ics w resp w1 resp1 :
  applyResponseFrom idx ics w resp = (w1, Returns resp1 None) <->
  responseRun ics w resp w1 resp1.
Proof.
  split.
  - revert idx w resp. induction ics as [|i ics IH]; intros idx w resp.
    + intros [= <- <-]. constructor.
    + cbn [applyResponseFrom]. destruct (icResponse i) as [f|] eqn:Hf; [|done].
      destruct (f w resp) as [wa [respa [e|]]] eqn:Hcall; [done|].
      intros Hrest. by eapply responseRun_cons; [| |eapply IH].
  - intros Hrun. revert idx.
    induction Hrun as [|i ics f w resp wa respa w2 resp2 Hf Hcall _ IH]; intros idx.
    + done.
    + cbn [applyResponseFrom]. by rewrite Hf, Hcall.
Qed.

(** C5. For every registry and every request, a stage returns without
    error exactly when the functions of all its interceptors, applied left
    to right in registration order, each to what the one before left,
    return no error, and it then returns what the last one left: an empty
    registry returns the request as it is. When the functions before an
    interceptor return no error and its own function returns one, the
    stage returns that error wrapped with the zero-based index of the
    interceptor and no value, in the world that function left, whatever
    interceptors follow: none of them is called. An interceptor that is
    registered is applied after all the earlier ones. The same holds for
    the response stage. *)
Theorem stages_in_order_and_short_circuit :
  (forall ics w req w1 req1,
      ApplyRequestInterceptors (mkInterceptorManager ics) w req
      = (w1, Returns req1 None)
      <-> requestRun ics w req w1 req1) /\
  (forall pre i post f w req w1 req1 w2 req2 e,
      requestRun pre w req w1 req1 ->
      icRequest i = Some f ->
      f w1 req1 = (w2, (req2, Some e)) ->
      ApplyRequestInterceptors (mkInterceptorManager (pre ++ i :: post)) w req
      = (w2, Returns None (Some (ErrorfIdx "request" (length pre) e)))) /\
  (forall ics w resp w1 resp1,
      ApplyResponseInterceptors (mkInterceptorManager ics) w resp
      = (w1, Returns resp1 None)
      <-> responseRun ics w resp w1 resp1) /\
  (forall pre i post f w resp w1 resp1 w2 resp2 e,
      responseRun pre w resp w1 resp1 ->
      icResponse i = Some f ->
      f w1 resp1 = (w2, (resp2, Some e)) ->
      ApplyResponseInterceptors (mkInterceptorManager (pre ++ i :: post)) w resp
      = (w2, Returns None (Some (ErrorfIdx "response" (length pre) e)))) /\
  (forall (im : InterceptorManager Ctx W) i f w req w1 req1 w2 req2,
      ApplyRequestInterceptors im w req = (w1, Returns req1 None) ->
      icRequest i = Some f ->
      f w1 req1 = (w2, (req2, None)) ->
      ApplyRequestInterceptors (AddInterceptor im i) w req
      = (w2, Returns req2 None)) /\
  (forall pre i post f w req w1 req1 w2 req2 e,
      ApplyRequestInterceptors (mkInterceptorManager pre) w req
      = (w1, Returns req1 None) ->
      icRequest i = Some f ->
      f w1 req1 = (w2, (req2, Some e)) ->
      ApplyRequestInterceptors (mkInterceptorManager (pre ++ i :: post)) w req
      = (w2, Returns None (Some (ErrorfIdx "request" (length pre) e)))) /\
  (forall (im : InterceptorManager Ctx W) i f w resp w1 resp1 w2 resp2,
      ApplyResponseInterceptors im w resp = (w1, Returns resp1 None) ->
      icResponse i = Some f ->
      f w1 resp1 = (w2, (resp2, None)) ->
      ApplyResponseInterceptors (AddInterceptor im i) w resp
      = (w2, Returns resp2 None)) /\
  (forall pre i post f w resp w1 resp1 w2 resp2 e,
      ApplyResponseInterceptors (mkInterceptorManager pre) w resp
      = (w1, Returns resp1 None) ->
      icResponse i = Some f ->
      f w1 resp1 = (w2, (resp2, Some e)) ->
      ApplyResponseInterceptors (mkInterceptorManager (pre ++ i :: post)) w resp
      = (w2, Returns None (Some (ErrorfIdx "response" (length pre) e)))).
Proof.
  unfold ApplyRequestInterceptors, ApplyResponseInterceptors, AddInterceptor.
  cbn [interceptors].
  split; [|split; [|split; [|split; [|split; [|split; [|split]]]]]].
  - intros ics w req w1 req1. apply applyRequestFrom_run.
  - intros pre i post f w req w1 req1 w2 req2 e Hpre Hf Hcall.
    apply (applyRequestFrom_run 0) in Hpre.
    rewrite applyRequestFrom_app, Hpre. simpl. by rewrite Hf, Hcall.
  - intros ics w resp w1 resp1. apply applyResponseFrom_run.
  - intros pre i post f w resp w1 resp1 w2 resp2 e Hpre Hf Hcall.
    apply (applyResponseFrom_run 0) in Hpre.
    rewrite applyResponseFrom_app, Hpre. simpl. by rewrite Hf, Hcall.
  - intros im i f w req w1 req1 w2 req2 Hpre Hf Hcall.
    rewrite applyRequestFrom_app, Hpre. simpl. by rewrite Hf, Hcall.
  - intros pre i post f w req w1 req1 w2 req2 e Hpre Hf Hcall.
    rewrite applyRequestFrom_app, Hpre. simpl. by rewrite Hf, Hcall.
  - intros im i f w resp w1 resp1 w2 resp2 Hpre Hf Hcall.
    rewrite applyResponseFrom_app, Hpre. simpl. by rewrite Hf, Hcall.
  - intros pre i post f w resp w1 resp1 w2 resp2 e Hpre Hf Hcall.
    rewrite applyResponseFrom_app, Hpre. simpl. by rewrite Hf, Hcall.
Qed.
End PipelineFacts.

(** On the mocks: a manager holding one response-only interceptor, as the
    documentation of the package registers them, panics in the request
    stage before anything is logged; a manager holding one request-only
    interceptor panics in the response stage. *)
Example mock_missing_halves_panic :
  ApplyRequestInterceptors (mkInterceptorManager [Mock.R1]) [] (Some Mock.plain)
  = ([], Panics) /\
  ApplyResponseInterceptors (mkInterceptorManager [Mock.T1]) [] (Some Mock.ok200)
  = ([], Panics).
Proof. split; reflexivity. Qed.

(** Registering a request interceptor and a response interceptor on one
    client, as the documentation of the package does, makes [Request]
    panic after the first has run. *)
Example documented_registration_panics :
  Request Mock.newRequest Mock.statusText [] [] []
          (Mock.client 200 [Mock.T1; Mock.R1]) tt
          (Mock.get "http://example.test") emptyHeap []
  = (mkHeap {[ 0%nat := ∅ ]} {[ 0%nat := ∅ ]}, ["T1"%string], Panics).
Proof. by vm_compute. Qed.

(** As in the test of the response interceptor: the caller applies a
    manager of its own to the response that [Request] returned. *)
Example explicit_response_stage :
  let '(_, w, result) :=
    Request Mock.newRequest Mock.statusText [] [] [] (Mock.client 200 []) tt
            (Mock.get "http://example.test") emptyHeap [] in
  match result with
  | Returns resp None =>
      ApplyResponseInterceptors
        (mkInterceptorManager [Mock.responseOnly (Mock.rewriting "R1" [x2a%byte])])
        w resp
      = (["transport"; "R1"]%string,
         Returns (Some (mkResponse "200 OK" 200 [x2a%byte] ∅)) None)
  | _ => False
  end.
Proof. by vm_compute. Qed.

(** A new manager returns the request as it is. Registering [T1] then
    [T2] runs them in that order; when [T1] fails, alone or followed by
    [T2], [T2] is not called and the error names index 0. On the response
    side [R1] then [R2] run in that order; when the second of three fails,
    the third is not called and the error names index 1. *)
Lemma stages_in_order_and_short_circuit_witness :
  ApplyRequestInterceptors (@NewInterceptorManager unit Mock.World) []
                           (Some Mock.plain)
  = ([], Returns (Some Mock.plain) None) /\
  ApplyRequestInterceptors
    (AddInterceptor (mkInterceptorManager [Mock.T1]) Mock.T2) [] (Some Mock.plain)
  = (["T1"; "T2"]%string,
     Returns (Some (mkHttpRequest tt "GET" "http://example.test"
                (Some (Header_Set (Header_Set ∅ "Authorization" "Bearer token1")
                                  "Content-Type" "application/json"))
                None)) None) /\
  ApplyRequestInterceptors
    (mkInterceptorManager ([] ++ Mock.T1fails :: [])) [] (Some Mock.plain)
  = (["T1"]%string,
     Returns None (Some (ErrorfIdx "request" 0 (ErrForeign "boom")))) /\
  ApplyRequestInterceptors
    (mkInterceptorManager ([] ++ Mock.T1fails :: [Mock.T2])) [] (Some Mock.plain)
  = (["T1"]%string,
     Returns None (Some (ErrorfIdx "request" 0 (ErrForeign "boom")))) /\
  ApplyResponseInterceptors
    (AddInterceptor (mkInterceptorManager [Mock.R1]) Mock.R2) [] (Some Mock.ok200)
  = (["R1"; "R2"]%string, Returns (Some Mock.ok200) None) /\
  ApplyResponseInterceptors
    (mkInterceptorManager ([Mock.R1] ++ Mock.Rfails :: [Mock.R2])) []
    (Some Mock.ok200)
  = (["R1"; "Rfails"]%string,
     Returns None (Some (ErrorfIdx "response" 1 (ErrForeign "boom")))).
Proof.
  destruct (@stages_in_order_and_short_circuit unit Mock.World)
    as (Hreq & Hreq_stop & Hresp & Hresp_stop & Hreq_add & _ & Hresp_add & _).
  split; [|split; [|split; [|split; [|split]]]].
  - apply Hreq. constructor.
  - eapply Hreq_add.
    + apply Hreq. eapply requestRun_cons; [reflexivity|reflexivity|constructor].
    + reflexivity.
    + reflexivity.
  - eapply (Hreq_stop [] Mock.T1fails []); [constructor|reflexivity|reflexivity].
  - eapply (Hreq_stop [] Mock.T1fails [Mock.T2]);
      [constructor|reflexivity|reflexivity].
  - eapply Hresp_add.
    + apply Hresp. eapply responseRun_cons; [reflexivity|reflexivity|constructor].
    + reflexivity.
    + reflexivity.
  - eapply (Hresp_stop [Mock.R1] Mock.Rfails [Mock.R2]).
    + eapply responseRun_cons; [reflexivity|reflexivity|constructor].
    + reflexivity.
    + reflexivity.
Defined.

(** ** The order of a range loop *)

Lemma pickOrder_perm {A : Type} (seed : list nat) (l : list A) :
  pickOrder seed l ≡ₚ l.
Proof.
  revert l. induction seed as [|s seed IH]; intros l; simpl; [done|].
  destruct (l !! (s mod length l)%nat) as [x|] eqn:Hx.
  - rewrite IH. symmetry. by apply delete_Permutation.
  - destruct l as [|y l]; [done|].
    apply lookup_ge_None in Hx.
    pose proof (Nat.mod_upper_bound s (length (y :: l))) as Hlt.
    simpl in *. lia.
Qed.

(** Every order of the keys is the order of some seed. *)
Lemma pickOrder_complete {A : Type} (l l' : list A) :
  l ≡ₚ l' -> exists seed, pickOrder seed l = l'.
Proof.
  revert l. induction l' as [|x l' IH]; intros l Hp.
  - exists []. by apply Permutation_nil_r.
  - assert (Hx : x ∈ l) by (rewrite Hp; left).
    apply list_elem_of_lookup in Hx as [i Hi].
    destruct (IH (delete i l)) as [seed Hseed].
    { apply (Permutation_cons_inv (a := x)).
      by rewrite <- Hp, <- delete_Permutation. }
    exists (i :: seed). cbn [pickOrder].
    rewrite Nat.mod_small by (by eapply lookup_lt_Some).
    by rewrite Hi, Hseed.
Qed.

Lemma elem_of_rangeKeys {V : Type} seed (m : gmap string V) key :
  key ∈ rangeKeys seed m <-> is_Some (m !! key).
Proof.
  unfold rangeKeys. rewrite pickOrder_perm, list_elem_of_fmap. split.
  - intros [[k v] [-> Hkv]]. apply elem_of_map_to_list in Hkv. by exists v.
  - intros [v Hv]. exists (key, v). split; [done|]. by apply elem_of_map_to_list.
Qed.

Lemma NoDup_rangeKeys {V : Type} seed (m : gmap string V) :
  NoDup (rangeKeys seed m).
Proof. unfold rangeKeys. rewrite pickOrder_perm. apply NoDup_fst_map_to_list. Qed.

(** ** Adding headers *)

Lemma entry_Header_Add h key value K :
  entry (Header_Add h key value) K =
  entry h K ++ (if decide (CanonicalMIMEHeaderKey key = K) then [value] else []).
Proof.
  unfold entry, Header_Add. case_decide as HK.
  - subst K. by rewrite lookup_insert_eq.
  - rewrite lookup_insert_ne by done. by rewrite app_nil_r.
Qed.

Lemma contribution_empty keys K : contribution ∅ keys K = [].
Proof.
  induction keys as [|key keys IH]; [done|].
  unfold contribution in *. cbn [flat_map]. rewrite IH.
  unfold entry. rewrite lookup_empty. by case_decide.
Qed.

(** ** Dispatch *)

Section DispatchFacts.
Context {Ctx W : Type}.
Variable NewRequestWithContext :
  Ctx -> string -> string -> option (list byte) -> HttpRequest Ctx + GoError.
Variable StatusText : Z -> string.
Implicit Types (c : Client Ctx W) (req : HttpRequest Ctx) (w : W) (hp : Heap).

Lemma withHeader_id req h : req_Header req = Some h -> withHeader req h = req.
Proof. destruct req; simpl; by intros ->. Qed.

Lemma withHeader_withHeader req h h' :
  withHeader (withHeader req h) h' = withHeader req h'.
Proof. done. Qed.

Lemma addHeader_values key values req h :
  exists out,
    fold_left (addHeader key) values (Some (withHeader req h))
    = Some (withHeader req out) /\
    forall K, entry out K =
              entry h K ++
              (if decide (CanonicalMIMEHeaderKey key = K) then values else []).
Proof.
  revert h. induction values as [|v values IH]; intros h; cbn [fold_left].
  - exists h. split; [done|]. intros K. case_decide; by rewrite app_nil_r.
  - change (addHeader key (Some (withHeader req h)) v)
      with (Some (withHeader req (Header_Add h key v))).
    destruct (IH (Header_Add h key v)) as (out & -> & Hout).
    exists out. split; [done|]. intros K.
    rewrite Hout, entry_Header_Add. case_decide; by rewrite <- ?app_assoc.
Qed.

Lemma copy_loop (m : Header) keys req h :
  exists out,
    fold_left
      (fun r key =>
         match m !! key with
         | None => r
         | Some values => fold_left (addHeader key) values r
         end) keys (Some (withHeader req h))
    = Some (withHeader req out) /\
    forall K, entry out K = entry h K ++ contribution m keys K.
Proof.
  revert h. induction keys as [|key keys IH]; intros h; cbn [fold_left].
  - exists h. split; [done|]. intros K. by rewrite app_nil_r.
  - assert (Hcons : forall K, contribution m (key :: keys) K =
              (if decide (CanonicalMIMEHeaderKey key = K) then entry m key else [])
              ++ contribution m keys K) by done.
    destruct (m !! key) as [values|] eqn:Hkey.
    + destruct (addHeader_values key values req h) as (h1 & -> & Hh1).
      destruct (IH h1) as (out & -> & Hout).
      exists out. split; [done|]. intros K.
      rewrite Hout, Hh1, Hcons, <- app_assoc. unfold entry at 3. by rewrite Hkey.
    + destruct (IH h) as (out & -> & Hout).
      exists out. split; [done|]. intros K.
      rewrite Hout, Hcons. unfold entry at 3. rewrite Hkey. by case_decide.
Qed.

Lemma copyHeaders_spec seed hp fc req pre :
  req_Header req = Some pre ->
  exists out,
    copyHeaders seed hp fc req = Some (withHeader req out) /\
    forall K, entry out K =
              entry pre K ++
              contribution (configHeaders hp fc)
                           (rangeKeys seed (configHeaders hp fc)) K.
Proof.
  intros Hpre. unfold copyHeaders, configHeaders.
  destruct (Headers fc) as [l|].
  - destruct (copy_loop (hdr hp l) (rangeKeys seed (hdr hp l)) req pre)
      as (out & Hout & Hentry).
    rewrite (withHeader_id req pre Hpre) in Hout. by exists out.
  - exists pre. split; [by rewrite withHeader_id|].
    intros K. by rewrite contribution_empty, app_nil_r.
Qed.

Lemma contribution_whole (m : Header) keys key values :
  key ∈ keys -> m !! key = Some values ->
  exists before after,
    contribution m keys (CanonicalMIMEHeaderKey key) = before ++ values ++ after.
Proof.
  intros Hin Hkey. apply list_elem_of_split in Hin as (l1 & l2 & ->).
  unfold contribution. rewrite flat_map_app. cbn [flat_map].
  rewrite decide_True by done. unfold entry. rewrite Hkey. simpl.
  eauto.
Qed.
(** C9. In [Request], once the request interceptors have returned a
    request with a header map, every value of every header of the final
    configuration is added to it: under each key the values the request
    already had stay in front, and each configured list follows them
    whole and in order. The result is the request given to the
    transport. *)
Theorem config_headers_are_added
    seedH seedP seedC c ctx cfg hp w hp1 fc req0 w1 req1 pre :
  mergeConfig seedH seedP hp (config c) cfg = (hp1, fc) ->
  NewRequestWithContext ctx (Method fc) (URL fc) (Body fc) = inl req0 ->
  match interceptorManager c with
  | Some im => ApplyRequestInterceptors im w (Some req0)
  | None => (w, Returns (Some req0) None)
  end = (w1, Returns (Some req1) None) ->
  req_Header req1 = Some pre ->
  exists out,
    Request_prepare NewRequestWithContext seedH seedP seedC c ctx cfg hp w
    = (hp1, w1, inr (withHeader req1 out)) /\
    (forall K,
        entry out K =
        entry pre K ++
        contribution (configHeaders hp1 fc)
                     (rangeKeys seedC (configHeaders hp1 fc)) K) /\
    (forall key values,
        configHeaders hp1 fc !! key = Some values ->
        exists before after,
          Header_Values out key =
          Header_Values pre key ++ before ++ values ++ after).
Proof.
  intros Hmerge Hnew Hstage Hpre.
  destruct (copyHeaders_spec seedC hp1 fc req1 pre Hpre) as (out & Hcopy & Hout).
  exists out. split; [|split; [done|]].
  - unfold Request_prepare, prepareRequestBody.
    rewrite Hmerge, Hnew, Hstage, Hcopy. done.
  - intros key values Hkey.
    destruct (contribution_whole (configHeaders hp1 fc)
                (rangeKeys seedC (configHeaders hp1 fc)) key values)
      as (before & after & Hc); [by apply elem_of_rangeKeys|done|].
    exists before, after. unfold Header_Values.
    fold (entry out (CanonicalMIMEHeaderKey key)).
    fold (entry pre (CanonicalMIMEHeaderKey key)).
    by rewrite Hout, Hc.
Qed.

(** C4. When the transport answers with a status of 400 or more,
    [Request] returns no response and a [RequestError] with that status;
    when it answers 200 and the body can be read, [Request] returns a
    response with status 200 and no error; when the transport itself
    fails, the error is the wrapped transport error. Conversely an error
    of [Request] is a [RequestError] only when the transport answered
    with a status of 400 or more. *)
Theorem status_classification seedH seedP seedC c ctx cfg hp w :
  let prepared :=
    Request_prepare NewRequestWithContext seedH seedP seedC c ctx cfg hp w in
  let result :=
    Request NewRequestWithContext StatusText seedH seedP seedC c ctx cfg hp w in
  (forall hp1 w1 req w2 resp,
      prepared = (hp1, w1, inr req) ->
      httpClient c w1 req = (w2, inl resp) ->
      400 ≤ hr_StatusCode resp ->
      exists re,
        result = (hp1, w2, Returns None (Some (ErrRequest re))) /\
        re_StatusCode re = hr_StatusCode resp) /\
  (forall hp1 w1 req w2 resp,
      prepared = (hp1, w1, inr req) ->
      httpClient c w1 req = (w2, inl resp) ->
      hr_StatusCode resp = 200 ->
      bs_err (hr_Body resp) = None ->
      exists r,
        result = (hp1, w2, Returns (Some r) None) /\ StatusCode r = 200) /\
  (forall hp1 w1 req w2 err,
      prepared = (hp1, w1, inr req) ->
      httpClient c w1 req = (w2, inr err) ->
      result = (hp1, w2, Returns None (Some (Errorf "executing request" err)))) /\
  (forall hp2 w2 v re,
      result = (hp2, w2, Returns v (Some (ErrRequest re))) ->
      v = None /\
      exists w1 req resp,
        prepared = (hp2, w1, inr req) /\
        httpClient c w1 req = (w2, inl resp) /\
        400 ≤ hr_StatusCode resp /\
        re_StatusCode re = hr_StatusCode resp).
Proof.
  intros prepared result. subst result. unfold Request. fold prepared.
  split; [|split; [|split]].
  - intros hp1 w1 req w2 resp -> Hdo Hcode.
    unfold Request_send, HandleResponseError. rewrite Hdo.
    rewrite !decide_True by done. eauto.
  - intros hp1 w1 req w2 resp -> Hdo Hcode Hread.
    unfold Request_send, ParseResponse. rewrite Hdo, Hread.
    rewrite decide_False by lia. eauto.
  - intros hp1 w1 req w2 err -> Hdo.
    unfold Request_send. by rewrite Hdo.
  - intros hp2 w2 v re.
    destruct prepared as [[hp1 w1] [early|req]] eqn:Hprep.
    + intros [= -> -> ->]. exfalso.
      unfold prepared, Request_prepare, prepareRequestBody in Hprep.
      destruct (mergeConfig _ _ _ _ _) as [hpm fc].
      destruct (NewRequestWithContext _ _ _ _) as [req0|err]; [|congruence].
      destruct (match interceptorManager c with
                | Some im => ApplyRequestInterceptors im w (Some req0)
                | None => (w, Returns (Some req0) None)
                end) as [wi [[req1|] [e|]|]]; try congruence.
      destruct (copyHeaders _ _ _ _); congruence.
    + unfold Request_send, HandleResponseError, ParseResponse.
      destruct (httpClient c w1 req) as [w3 [resp|err]] eqn:Hdo; [|congruence].
      destruct (decide (400 ≤ hr_StatusCode resp)) as [Hcode|Hcode].
      * intros [= -> -> -> <-].
        split; [done|]. by exists w1, req, resp.
      * destruct (bs_err (hr_Body resp)); congruence.
Qed.

(** C6. [Request] runs the request interceptors by itself, before the
    transport is called: the transport starts from the world they left
    and is given the request they produced, with the configured headers
    added; when they fail the transport is not called. [Request] never
    runs the response interceptors: replacing the response functions of
    the registered interceptors by any others, nil ones included, changes
    neither its result nor the world it leaves. *)
Theorem request_stage_automatic_response_stage_not
    seedH seedP seedC c ctx cfg hp w :
  let result :=
    Request NewRequestWithContext StatusText seedH seedP seedC c ctx cfg hp w in
  (forall im hp1 fc req0,
      interceptorManager c = Some im ->
      mergeConfig seedH seedP hp (config c) cfg = (hp1, fc) ->
      NewRequestWithContext ctx (Method fc) (URL fc) (Body fc) = inl req0 ->
      result =
      match ApplyRequestInterceptors im w (Some req0) with
      | (w1, Returns (Some req1) None) =>
          match copyHeaders seedC hp1 fc req1 with
          | Some out =>
              let '(w2, answer) := Request_send StatusText c w1 out in
              (hp1, w2, answer)
          | None => (hp1, w1, Panics)
          end
      | (w1, Returns None None) => (hp1, w1, Panics)
      | (w1, Returns _ (Some err)) =>
          (hp1, w1,
           Returns None (Some (Errorf "applying request interceptors" err)))
      | (w1, Panics) => (hp1, w1, Panics)
      end) /\
  (forall ics ics',
      interceptorManager c = Some (mkInterceptorManager ics) ->
      Forall2 (fun i i' => icRequest i = icRequest i') ics ics' ->
      Request NewRequestWithContext StatusText seedH seedP seedC
              (mkClient (httpClient c) (config c)
                        (Some (mkInterceptorManager ics')))
              ctx cfg hp w
      = result).
Proof.
  intros result. subst result. split.
  - intros im hp1 fc req0 Him Hmerge Hnew.
    unfold Request, Request_prepare, prepareRequestBody.
    rewrite Hmerge, Hnew, Him.
    destruct (ApplyRequestInterceptors im w (Some req0))
      as [w1 [[req1|] [e|]|]]; try done.
    by destruct (copyHeaders seedC hp1 fc req1).
  - intros ics ics' Him Hsame.
    unfold Request, Request_prepare, Request_send, ApplyRequestInterceptors.
    rewrite Him. simpl.
    destruct (mergeConfig seedH seedP hp (config c) cfg) as [hp1 fc].
    destruct (NewRequestWithContext _ _ _ _) as [req0|err]; [|done].
    by rewrite (applyRequestFrom_ext 0 ics ics' w (Some req0) Hsame).
Qed.

(** C10. [CancelableRequest] is [Request]: the same result, the same
    store and the same world, for every context and configuration. *)
Theorem CancelableRequest_is_Request seedH seedP seedC c ctx cfg hp w :
  CancelableRequest NewRequestWithContext StatusText seedH seedP seedC c ctx cfg hp w
  = Request NewRequestWithContext StatusText seedH seedP seedC c ctx cfg hp w.
Proof. reflexivity. Qed.
End DispatchFacts.

(** The mocks of the tests: a server answering 500, one answering 200, a
    cancelled call. *)
Lemma status_classification_witness :
  let run transport :=
    Request Mock.newRequest Mock.statusText [] [] []
            (mkClient transport (mkConfig "" "" None None None 10)
                      (Some (mkInterceptorManager [Mock.T1])))
            tt (Mock.get "http://example.test") emptyHeap [] in
  (exists hp w re,
      run (Mock.server 500) = (hp, w, Returns None (Some (ErrRequest re))) /\
      re_StatusCode re = 500) /\
  (exists hp w r,
      run (Mock.server 200) = (hp, w, Returns (Some r) None) /\
      StatusCode r = 200) /\
  (exists hp w,
      run Mock.canceled =
      (hp, w, Returns None
                (Some (Errorf "executing request" (ErrForeign "context canceled"))))) /\
  (exists resp : HttpResponse unit, 400 ≤ hr_StatusCode resp).
Proof.
  intros run.
  pose proof (fun transport =>
    status_classification Mock.newRequest Mock.statusText [] [] []
      (mkClient transport (mkConfig "" "" None None None 10)
                (Some (mkInterceptorManager [Mock.T1])))
      tt (Mock.get "http://example.test") emptyHeap []) as H.
  split; [|split; [|split]].
  - destruct (H (Mock.server 500)) as (H500 & _).
    edestruct H500 as (re & Hres & Hcode);
      [reflexivity | reflexivity | by vm_compute |].
    eexists _, _, re. split; [exact Hres | exact Hcode].
  - destruct (H (Mock.server 200)) as (_ & H200 & _).
    edestruct H200 as (r & Hres & Hcode);
      [reflexivity | reflexivity | reflexivity | reflexivity |].
    eexists _, _, r. split; [exact Hres | exact Hcode].
  - destruct (H Mock.canceled) as (_ & _ & Hfail & _).
    eexists _, _. eapply Hfail; reflexivity.
  - destruct (H (Mock.server 500)) as (_ & _ & _ & Honly).
    edestruct Honly as (_ & w1 & req & resp & _ & _ & Hcode & _); [reflexivity|].
    exists resp. exact Hcode.
Defined.

(** With [T1] registered, the request stage runs before the transport;
    giving [T1] a response function changes nothing. *)
Lemma request_stage_automatic_response_stage_not_witness :
  let run ics :=
    Request Mock.newRequest Mock.statusText [] [] [] (Mock.client 200 ics)
            tt (Mock.get "http://example.test") emptyHeap [] in
  (run [Mock.T1]).1.2 = ["T1"; "transport"]%string /\
  run [mkInterceptor (icRequest Mock.T1) (icResponse Mock.Rfails)]
  = run [Mock.T1].
Proof.
  intros run.
  destruct (request_stage_automatic_response_stage_not
              Mock.newRequest Mock.statusText [] [] [] (Mock.client 200 [Mock.T1])
              tt (Mock.get "http://example.test") emptyHeap [])
    as (Hauto & Hnever).
  split.
  - pose (m := mergeConfig [] [] emptyHeap (config (Mock.client 200 [Mock.T1]))
                          (Mock.get "http://example.test")).
    unfold run.
    rewrite (Hauto (mkInterceptorManager [Mock.T1]) m.1 m.2 Mock.plain
                   eq_refl eq_refl eq_refl).
    reflexivity.
  - apply (Hnever [Mock.T1]); [reflexivity | repeat constructor].
Defined.

(** The interceptor sets [X-Tag] to [v0]; the default configuration
    holds [X-Tag: v1, v2]; the request that is sent carries all three. *)
Lemma config_headers_are_added_witness :
  exists hp w req out,
    Request_prepare Mock.newRequest [] [] [] (Mock.taggedClient [Mock.Ttag])
                    tt (Mock.get "http://example.test") Mock.tagged []
    = (hp, w, inr (withHeader req out)) /\
    entry out "X-Tag" = ["v0"; "v1"; "v2"]%string /\
    exists before after,
      Header_Values out "x-tag" = ["v0"]%string ++ before ++ ["v1"; "v2"]%string ++ after.
Proof.
  edestruct (config_headers_are_added Mock.newRequest [] [] []
               (Mock.taggedClient [Mock.Ttag]) tt
               (Mock.get "http://example.test") Mock.tagged [])
    as (out & Hprep & Hentry & Hwhole);
    [reflexivity | reflexivity | reflexivity | reflexivity |].
  eexists _, _, _, out. split; [exact Hprep|]. split.
  - rewrite Hentry. by vm_compute.
  - apply (Hwhole "X-Tag"%string). by vm_compute.
Defined.

(** ** Configuration merge *)

Section StoreFacts.
Context {V : Type}.
Implicit Types (objs : Objs V) (m : gmap string V).

Lemma deref_insert_eq objs l m : deref (<[l := m]> objs) l = m.
Proof. unfold deref. by rewrite lookup_insert_eq. Qed.

Lemma deref_insert_ne objs l l' m :
  l ≠ l' -> deref (<[l := m]> objs) l' = deref objs l'.
Proof. intros Hne. unfold deref. by rewrite lookup_insert_ne. Qed.

Lemma deref_insert_same objs l l' : deref (<[l := deref objs l]> objs) l' = deref objs l'.
Proof.
  destruct (decide (l = l')) as [->|Hne].
  - apply deref_insert_eq.
  - by apply deref_insert_ne.
Qed.

Lemma deref_alloc_new objs objs' l : alloc objs = (objs', l) -> deref objs' l = ∅.
Proof. intros [= <- <-]. apply deref_insert_eq. Qed.

Lemma deref_alloc_old objs objs' l l' :
  alloc objs = (objs', l) -> l' ≠ l -> deref objs' l' = deref objs l'.
Proof. intros [= <- <-] Hne. by apply deref_insert_ne. Qed.

Lemma alloc_fresh objs objs' l : alloc objs = (objs', l) -> objs !! l = None.
Proof. intros [= _ <-]. apply not_elem_of_dom, is_fresh. Qed.

Lemma rangeKeys_empty seed : rangeKeys seed (∅ : gmap string V) = [].
Proof.
  apply Permutation_nil_r. unfold rangeKeys.
  by rewrite pickOrder_perm, map_to_list_empty.
Qed.

Lemma rangeKeys_perm seed m : rangeKeys seed m ≡ₚ (map_to_list m).*1.
Proof. apply pickOrder_perm. Qed.

Lemma rangeKeys_single seed m key v :
  map_to_list m = [(key, v)] -> rangeKeys seed m = [key].
Proof.
  intros Hm. apply Permutation_singleton_r.
  by rewrite rangeKeys_perm, Hm.
Qed.
End StoreFacts.

Section CanonicalKeyFacts.

Lemma canonicalByte_idem upper c :
  canonicalByte upper (canonicalByte upper c) = canonicalByte upper c.
Proof. destruct upper, c as [[] [] [] [] [] [] [] []]; reflexivity. Qed.

Lemma validHeaderFieldByte_canonicalByte upper c :
  validHeaderFieldByte (canonicalByte upper c) = validHeaderFieldByte c.
Proof. destruct upper, c as [[] [] [] [] [] [] [] []]; reflexivity. Qed.

Lemma canonicalize_idem upper s :
  canonicalize upper (canonicalize upper s) = canonicalize upper s.
Proof.
  revert upper. induction s as [|c s IH]; intros upper; [done|].
  cbn [canonicalize]. by rewrite canonicalByte_idem, IH.
Qed.

Lemma canonicalize_valid upper s :
  forallb validHeaderFieldByte (list_ascii_of_string (canonicalize upper s))
  = forallb validHeaderFieldByte (list_ascii_of_string s).
Proof.
  revert upper. induction s as [|c s IH]; intros upper; [done|].
  cbn [canonicalize list_ascii_of_string forallb].
  by rewrite validHeaderFieldByte_canonicalByte, IH.
Qed.

(** A canonical key is its own canonical form. *)
Lemma CanonicalMIMEHeaderKey_idem s :
  CanonicalMIMEHeaderKey (CanonicalMIMEHeaderKey s) = CanonicalMIMEHeaderKey s.
Proof.
  unfold CanonicalMIMEHeaderKey.
  destruct (forallb validHeaderFieldByte (list_ascii_of_string s)) eqn:Hs.
  - by rewrite canonicalize_valid, Hs, canonicalize_idem.
  - by rewrite Hs.
Qed.

Lemma NoDup_fmap_eq {A B : Type} (f : A -> B) (l : list A) x y :
  NoDup (f <$> l) -> x ∈ l -> y ∈ l -> f x = f y -> x = y.
Proof.
  induction l as [|z l IH]; intros Hnd Hx Hy Hf; [by apply elem_of_nil in Hx|].
  rewrite fmap_cons in Hnd. apply NoDup_cons in Hnd as [Hz Hnd].
  apply elem_of_cons in Hx as [->|Hx], Hy as [->|Hy]; [done| | |by apply IH].
  - exfalso. apply Hz. rewrite Hf. by apply list_elem_of_fmap_2.
  - exfalso. apply Hz. rewrite <- Hf. by apply list_elem_of_fmap_2.
Qed.

End CanonicalKeyFacts.

Section MergeHeadersFacts.
Implicit Types (objs : Objs (list string)) (m h : Header).

Lemma set_loop_deref d key values objs :
  deref (fold_left
           (fun objs value => <[d := Header_Set (deref objs d) key value]> objs)
           values objs) d
  = setValues (deref objs d) key values /\
  forall l, l ≠ d ->
    deref (fold_left
             (fun objs value => <[d := Header_Set (deref objs d) key value]> objs)
             values objs) l
    = deref objs l.
Proof.
  revert objs. induction values as [|v values IH]; intros objs; [done|].
  cbn [fold_left]. destruct (IH (<[d := Header_Set (deref objs d) key v]> objs))
    as [Hd Hother].
  split.
  - by rewrite Hd, deref_insert_eq.
  - intros l Hne. rewrite Hother by done. by apply deref_insert_ne.
Qed.

(** Setting the values of a key one after the other leaves the last. *)
Lemma setValues_last h key values :
  setValues h key values =
  match last values with
  | Some value => <[CanonicalMIMEHeaderKey key := [value]]> h
  | None => h
  end.
Proof.
  revert h. induction values as [|v values IH]; intros h; [done|].
  unfold setValues in *. cbn [fold_left]. rewrite IH, last_cons.
  destruct (last values); [|done].
  unfold Header_Set. by rewrite insert_insert_eq.
Qed.

Lemma setValues_union m key h :
  match m !! key with
  | None => h
  | Some values => setValues h key values
  end = lastSet m key ∪ h.
Proof.
  unfold lastSet. destruct (m !! key) as [values|].
  - rewrite setValues_last. destruct (last values).
    + apply insert_union_singleton_l.
    + by rewrite (left_id_L ∅ (∪)).
  - by rewrite (left_id_L ∅ (∪)).
Qed.

(** One iteration of the loop of [mergeHeaders]. *)
Lemma mergeHeaders_step_deref d u objs key :
  deref (mergeHeaders_step d u objs key) d
  = lastSet (deref objs u) key ∪ deref objs d /\
  forall l, l ≠ d -> deref (mergeHeaders_step d u objs key) l = deref objs l.
Proof.
  rewrite <- setValues_union. unfold mergeHeaders_step.
  destruct (deref objs u !! key) as [values|]; [|done].
  apply set_loop_deref.
Qed.

Lemma lastSet_lookup m key K x :
  lastSet m key !! K = Some x ->
  K = CanonicalMIMEHeaderKey key /\
  exists values value,
    m !! key = Some values /\ last values = Some value /\ x = [value].
Proof.
  unfold lastSet. destruct (m !! key) as [values|]; [|by rewrite lookup_empty].
  destruct (last values) as [value|] eqn:Hlast; [|by rewrite lookup_empty].
  intros [-> <-]%lookup_singleton_Some. split; [done|]. by exists values, value.
Qed.

Lemma lastSet_disjoint m key1 key2 :
  CanonicalMIMEHeaderKey key1 ≠ CanonicalMIMEHeaderKey key2 ->
  lastSet m key1 ##ₘ lastSet m key2.
Proof.
  intros Hne. apply map_disjoint_spec. intros K x y H1 H2.
  apply lastSet_lookup in H1 as [-> _], H2 as [? _]. congruence.
Qed.

Lemma lastSets_lookup m keys K x :
  lastSets m keys !! K = Some x ->
  exists key values value,
    key ∈ keys /\ K = CanonicalMIMEHeaderKey key /\
    m !! key = Some values /\ last values = Some value /\ x = [value].
Proof.
  induction keys as [|key keys IH]; [cbn [lastSets]; by rewrite lookup_empty|].
  cbn [lastSets]. intros [Hin|[_ Hhere]]%lookup_union_Some_raw.
  - destruct (IH Hin) as (key' & values & value & Hkey' & Hrest).
    exists key', values, value. split; [by right|done].
  - apply lastSet_lookup in Hhere as (-> & values & value & Hrest).
    exists key, values, value. split; [by left|done].
Qed.

Lemma lastSets_lookup_key m keys key values value :
  NoDup (CanonicalMIMEHeaderKey <$> keys) ->
  key ∈ keys -> m !! key = Some values -> last values = Some value ->
  lastSets m keys !! CanonicalMIMEHeaderKey key = Some [value].
Proof.
  intros Hnd Hin Hkey Hlast.
  induction keys as [|key0 keys IH]; [by apply elem_of_nil in Hin|].
  rewrite fmap_cons in Hnd. apply NoDup_cons in Hnd as [Hfresh Hnd].
  cbn [lastSets]. apply elem_of_cons in Hin as [->|Hin].
  - apply lookup_union_Some_raw. right. split.
    + destruct (lastSets m keys !! CanonicalMIMEHeaderKey key0) as [x|] eqn:Hx;
        [|done].
      apply lastSets_lookup in Hx as (key' & _ & _ & Hkey' & Heq & _).
      exfalso. apply Hfresh. rewrite Heq. by apply list_elem_of_fmap_2.
    + unfold lastSet. rewrite Hkey, Hlast. apply lookup_singleton_eq.
  - apply lookup_union_Some_raw. left. by apply IH.
Qed.

Lemma lastSets_ext m m' keys :
  (forall key, key ∈ keys -> m !! key = m' !! key) ->
  lastSets m keys = lastSets m' keys.
Proof.
  induction keys as [|key keys IH]; intros Hsame; [done|].
  cbn [lastSets]. rewrite IH by (intros k Hk; apply Hsame; by right).
  unfold lastSet. by rewrite (Hsame key) by left.
Qed.

(** When the canonical forms of the keys are pairwise distinct, the
    visiting order does not matter. *)
Lemma lastSets_perm m keys1 keys2 :
  keys1 ≡ₚ keys2 ->
  NoDup (CanonicalMIMEHeaderKey <$> keys1) ->
  lastSets m keys1 = lastSets m keys2.
Proof.
  induction 1 as [|x l l' _ IH|x y l|l l' l'' Hp1 IH1 Hp2 IH2]; intros Hnd.
  - done.
  - cbn [lastSets]. rewrite IH; [done|]. by apply NoDup_cons_1_2 in Hnd.
  - cbn [lastSets]. rewrite <- !(assoc_L (∪)). f_equal.
    apply map_union_comm, lastSet_disjoint.
    rewrite !fmap_cons in Hnd. apply NoDup_cons_1_1 in Hnd.
    intros Heq. apply Hnd. rewrite Heq. left.
  - rewrite IH1 by done. apply IH2. by rewrite <- Hp1.
Qed.

(** The loop of [mergeHeaders]. The map ranged over may be the default
    map itself: the entries the loop writes are then not entries it still
    has to read. *)
Lemma mergeHeaders_loop_deref d u keys objs :
  NoDup keys ->
  NoDup (CanonicalMIMEHeaderKey <$> keys) ->
  deref (fold_left (mergeHeaders_step d u) keys objs) d
  = lastSets (deref objs u) keys ∪ deref objs d /\
  forall l, l ≠ d ->
    deref (fold_left (mergeHeaders_step d u) keys objs) l = deref objs l.
Proof.
  revert objs. induction keys as [|key keys IH]; intros objs Hnd Hcanon.
  - split; [|done]. cbn [fold_left lastSets]. by rewrite (left_id_L ∅ (∪)).
  - cbn [fold_left lastSets].
    destruct (mergeHeaders_step_deref d u objs key) as [Hsd Hso].
    apply NoDup_cons in Hnd as [Hkey Hnd].
    pose proof Hcanon as Hall.
    rewrite fmap_cons in Hcanon. apply NoDup_cons in Hcanon as [_ Hcanon].
    destruct (IH (mergeHeaders_step d u objs key) Hnd Hcanon) as [Hd Hother].
    split; [|intros l Hl; by rewrite Hother, Hso].
    rewrite Hd, Hsd, (assoc_L (∪)). f_equal. f_equal.
    apply lastSets_ext. intros k Hk.
    destruct (decide (u = d)) as [->|Hne]; [|by rewrite Hso].
    rewrite Hsd. apply lookup_union_r.
    destruct (lastSet (deref objs d) key !! k) as [x|] eqn:Hx; [|done].
    apply lastSet_lookup in Hx as [-> _]. exfalso. apply Hkey.
    assert (CanonicalMIMEHeaderKey key = key) as <-; [|done].
    apply (NoDup_fmap_eq CanonicalMIMEHeaderKey (key :: keys));
      [done|by right|by left|].
    apply CanonicalMIMEHeaderKey_idem.
Qed.

Lemma settled_after_merge m keys :
  NoDup (CanonicalMIMEHeaderKey <$> keys) ->
  (forall key, is_Some (m !! key) -> key ∈ keys) ->
  settled (lastSets m keys ∪ m).
Proof.
  intros Hcanon Hdom key values value Hkey Hlast.
  apply lookup_union_Some_raw in Hkey as [Hnew|[_ Hold]].
  - apply lastSets_lookup in Hnew as (k & vs & v & Hk & -> & Hmk & Hv & ->).
    injection Hlast as <-. rewrite CanonicalMIMEHeaderKey_idem.
    apply lookup_union_Some_raw. left. by apply (lastSets_lookup_key m keys k vs).
  - apply lookup_union_Some_raw. left.
    apply (lastSets_lookup_key m keys key values); [done|by apply Hdom| |]; done.
Qed.

(** Ranging over a settled map and setting its values on itself changes
    nothing. *)
Lemma mergeHeaders_loop_settled d keys objs l :
  settled (deref objs d) ->
  deref (fold_left (mergeHeaders_step d d) keys objs) l = deref objs l.
Proof.
  revert objs. induction keys as [|key keys IH]; intros objs Hsettled; [done|].
  cbn [fold_left].
  assert (Hstep : forall l', deref (mergeHeaders_step d d objs key) l' = deref objs l').
  { intros l'. unfold mergeHeaders_step.
    destruct (deref objs d !! key) as [values|] eqn:Hkey; [|done].
    destruct (set_loop_deref d key values objs) as [Hd Hother].
    destruct (decide (l' = d)) as [->|Hne]; [|by apply Hother].
    rewrite Hd, setValues_last. destruct (last values) as [value|] eqn:Hlast; [|done].
    apply insert_id. by apply (Hsettled key values). }
  rewrite IH; [done|]. by rewrite Hstep.
Qed.

(** Merging the same headers a second time changes nothing. *)
Lemma mergeHeaders_twice seed1 seed2 objs dA u :
  (forall l, u = Some l -> NoDup (canonicalKeys (deref objs l))) ->
  forall objs1 d1 objs2 d2,
    mergeHeaders seed1 objs dA u = (objs1, d1) ->
    mergeHeaders seed2 objs1 (Some d1) u = (objs2, d2) ->
    d2 = d1 /\ deref objs2 d2 = deref objs1 d1.
Proof.
  intros Hdistinct objs1 d1 objs2 d2. unfold mergeHeaders.
  destruct (match dA with None => alloc objs | Some d => (objs, d) end)
    as [objs0 d0] eqn:Hstart.
  destruct u as [u|]; [|by intros [= <- <-] [= <- <-]].
  intros [= <- <-] [= <- <-]. split; [done|].
  assert (Hcanon : NoDup (canonicalKeys (deref objs0 u))).
  { destruct dA as [d|]; [injection Hstart as <- <-; by apply Hdistinct|].
    destruct (decide (u = d0)) as [->|Hne].
    - rewrite (deref_alloc_new _ _ _ Hstart). unfold canonicalKeys.
      rewrite map_to_list_empty. constructor.
    - rewrite (deref_alloc_old _ _ _ _ Hstart) by done. by apply Hdistinct. }
  assert (Hkeys : forall seed (m : Header),
             NoDup (canonicalKeys m) ->
             NoDup (CanonicalMIMEHeaderKey <$> rangeKeys seed m)).
  { intros seed m Hm. by rewrite rangeKeys_perm. }
  destruct (mergeHeaders_loop_deref d0 u (rangeKeys seed1 (deref objs0 u)) objs0)
    as [Hd1 Ho1]; [apply NoDup_rangeKeys|by apply Hkeys|].
  set (objs1 := fold_left (mergeHeaders_step d0 u)
                          (rangeKeys seed1 (deref objs0 u)) objs0) in *.
  destruct (decide (u = d0)) as [->|Hne].
  - (* the map ranged over is the default map *)
    apply mergeHeaders_loop_settled. rewrite Hd1.
    apply settled_after_merge; [by apply Hkeys|].
    intros key Hkey. by apply elem_of_rangeKeys.
  - destruct (mergeHeaders_loop_deref d0 u (rangeKeys seed2 (deref objs1 u)) objs1)
      as [Hd2 _]; [apply NoDup_rangeKeys|rewrite (Ho1 u Hne); by apply Hkeys|].
    rewrite Hd2, (Ho1 u Hne), Hd1.
    rewrite <- (lastSets_perm (deref objs0 u) (rangeKeys seed1 (deref objs0 u)))
      by (by rewrite ?rangeKeys_perm; try apply Hkeys).
    by rewrite (assoc_L (∪)), (idemp_L (∪)).
Qed.
(** What the loop of [mergeHeaders] leaves under an override key: the
    last value of its list, alone. *)
Lemma mergeHeaders_keeps_last seed objs dA l key values value objs1 d1 :
  NoDup (canonicalKeys (deref objs l)) ->
  deref objs l !! key = Some values ->
  last values = Some value ->
  mergeHeaders seed objs dA (Some l) = (objs1, d1) ->
  Header_Values (deref objs1 d1) key = [value].
Proof.
  intros Hcanon Hkey Hlast. unfold mergeHeaders.
  destruct (match dA with None => alloc objs | Some d => (objs, d) end)
    as [objs0 d0] eqn:Hstart.
  intros [= <- <-].
  assert (Hl : deref objs0 l = deref objs l).
  { destruct dA as [d|]; [by injection Hstart as <- <-|].
    apply (deref_alloc_old _ _ _ _ Hstart). intros ->.
    apply alloc_fresh in Hstart. unfold deref in Hkey.
    rewrite Hstart in Hkey. cbn [default] in Hkey. by rewrite lookup_empty in Hkey. }
  assert (Hkeys : NoDup (CanonicalMIMEHeaderKey <$> rangeKeys seed (deref objs0 l))).
  { by rewrite rangeKeys_perm, Hl. }
  destruct (mergeHeaders_loop_deref d0 l (rangeKeys seed (deref objs0 l)) objs0)
    as [Hd _]; [apply NoDup_rangeKeys|done|].
  unfold Header_Values. rewrite Hd.
  erewrite lookup_union_Some_l; [done|].
  apply (lastSets_lookup_key _ _ key values); [done| |by rewrite Hl|done].
  apply elem_of_rangeKeys. by rewrite Hl, Hkey.
Qed.
End MergeHeadersFacts.

Section MergeParamsFacts.
Implicit Types (objs : Objs string) (m p : ParamMap).

(** The loop of [mergeParams] over another object than the default. *)
Lemma mergeParams_loop_deref d u keys objs :
  u ≠ d ->
  deref (fold_left (mergeParams_step d u) keys objs) d
  = putAll (deref objs u) keys (deref objs d) /\
  forall l, l ≠ d ->
    deref (fold_left (mergeParams_step d u) keys objs) l = deref objs l.
Proof.
  intros Hne. revert objs.
  induction keys as [|key keys IH]; intros objs; [done|].
  unfold putAll in *. cbn [fold_left].
  destruct (IH (mergeParams_step d u objs key)) as [Hd Hother].
  unfold mergeParams_step in *.
  destruct (deref objs u !! key) as [value|] eqn:Hkey.
  - split.
    + by rewrite Hd, deref_insert_eq, deref_insert_ne.
    + intros l Hl. rewrite Hother by done. by apply deref_insert_ne.
  - done.
Qed.

(** The loop of [mergeParams] over the default map itself writes back
    what it reads. *)
Lemma mergeParams_loop_alias d keys objs l :
  deref (fold_left (mergeParams_step d d) keys objs) l = deref objs l.
Proof.
  revert objs. induction keys as [|key keys IH]; intros objs; [done|].
  cbn [fold_left]. rewrite IH. unfold mergeParams_step.
  destruct (deref objs d !! key) as [value|] eqn:Hkey; [|done].
  rewrite (insert_id (deref objs d) key value Hkey).
  apply deref_insert_same.
Qed.

Lemma putAll_lookup m keys p K :
  putAll m keys p !! K =
  match (if decide (K ∈ keys) then m !! K else None) with
  | Some value => Some value
  | None => p !! K
  end.
Proof.
  revert p. induction keys as [|key keys IH]; intros p.
  - by rewrite decide_False by apply not_elem_of_nil.
  - unfold putAll in *. cbn [fold_left]. rewrite IH.
    destruct (decide (K = key)) as [->|Hne].
    + rewrite (decide_True (P := key ∈ key :: keys)) by left.
      destruct (m !! key) as [value|] eqn:Hkey.
      * rewrite lookup_insert_eq. by case_decide.
      * by case_decide.
    + destruct (decide (K ∈ keys)) as [Hin|Hnin].
      * rewrite (decide_True (P := K ∈ key :: keys)) by (by right).
        destruct (m !! K); [done|].
        destruct (m !! key); [by rewrite lookup_insert_ne|done].
      * rewrite (decide_False (P := K ∈ key :: keys))
          by (by intros [?|?]%elem_of_cons).
        destruct (m !! key); [by rewrite lookup_insert_ne|done].
Qed.

Lemma putAll_twice m keys1 keys2 p :
  keys1 ≡ₚ keys2 ->
  putAll m keys2 (putAll m keys1 p) = putAll m keys1 p.
Proof.
  intros Hp. apply map_eq. intros K. rewrite !putAll_lookup.
  destruct (decide (K ∈ keys1)) as [Hin|Hnin].
  - rewrite decide_True by (by rewrite <- Hp). by destruct (m !! K).
  - by rewrite decide_False by (by rewrite <- Hp).
Qed.

(** Merging the same parameters a second time changes nothing. *)
Lemma mergeParams_twice seed1 seed2 objs dA u objs1 d1 objs2 d2 :
  mergeParams seed1 objs dA u = (objs1, d1) ->
  mergeParams seed2 objs1 (Some d1) u = (objs2, d2) ->
  d2 = d1 /\ deref objs2 d2 = deref objs1 d1.
Proof.
  unfold mergeParams.
  destruct (match dA with None => alloc objs | Some d => (objs, d) end)
    as [objs0 d0].
  destruct u as [u|]; [|by intros [= <- <-] [= <- <-]].
  intros [= <- <-] [= <- <-]. split; [done|].
  destruct (decide (u = d0)) as [->|Hne].
  - by rewrite !mergeParams_loop_alias.
  - destruct (mergeParams_loop_deref d0 u (rangeKeys seed1 (deref objs0 u)) objs0 Hne)
      as [Hd1 Ho1].
    set (objs1 := fold_left (mergeParams_step d0 u)
                            (rangeKeys seed1 (deref objs0 u)) objs0) in *.
    destruct (mergeParams_loop_deref d0 u (rangeKeys seed2 (deref objs1 u)) objs1 Hne)
      as [Hd2 _].
    rewrite Hd2, (Ho1 u Hne), Hd1.
    apply putAll_twice. by rewrite !rangeKeys_perm.
Qed.
End MergeParamsFacts.

Section MergeConfigFacts.
Implicit Types (hp : Heap) (A B : Config).

(** C8. The merged method is the override's when that is not the empty
    string and the base's when it is; the same for the URL. *)
Theorem merge_method_url_precedence seedH seedP hp A B :
  let merged := (mergeConfig seedH seedP hp A B).2 in
  (Method B ≠ ""%string -> Method merged = Method B) /\
  (Method B = ""%string -> Method merged = Method A) /\
  (URL B ≠ ""%string -> URL merged = URL B) /\
  (URL B = ""%string -> URL merged = URL A).
Proof.
  unfold mergeConfig.
  destruct (mergeHeaders _ _ _ _) as [hobjs fh].
  destruct (mergeParams _ _ _ _) as [pobjs fp]. simpl.
  repeat split; intros H; by rewrite ?decide_True, ?decide_False by (by rewrite ?H; auto).
Qed.

(** A non-nil base header map is the map of the merged configuration,
    and a non-nil base parameter map likewise. *)
Lemma merge_shares_base_maps seedH seedP hp A B :
  (forall l, Headers A = Some l ->
             Headers (mergeConfig seedH seedP hp A B).2 = Some l) /\
  (forall l, Params A = Some l ->
             Params (mergeConfig seedH seedP hp A B).2 = Some l).
Proof.
  unfold mergeConfig, mergeHeaders, mergeParams.
  split; intros l Hl; rewrite Hl; simpl;
    by destruct (Headers A), (Params A), (Headers B), (Params B).
Qed.

(** C7, for an override without two header keys of one canonical form.
    When the canonical forms of the header keys of [B] are pairwise
    distinct, merging [B] into the merge of [A] and [B] leaves the value
    of the configuration as it was (method, URL, body, timeout, contents
    of the header map and of the parameter map), whatever the orders of
    the four loops, and also when [A] and [B] share a map. *)
Theorem merge_idempotent seedH1 seedP1 seedH2 seedP2 hp A B :
  NoDup (canonicalKeys (configHeaders hp B)) ->
  let '(hp1, M1) := mergeConfig seedH1 seedP1 hp A B in
  let '(hp2, M2) := mergeConfig seedH2 seedP2 hp1 M1 B in
  configValue hp2 M2 = configValue hp1 M1.
Proof.
  intros Hdistinct. unfold mergeConfig.
  destruct (mergeHeaders seedH1 _ _ _) as [hobjs1 fh1] eqn:Hh1.
  destruct (mergeParams seedP1 _ _ _) as [pobjs1 fp1] eqn:Hp1.
  cbn [headerObjs paramObjs Headers Params Method URL Body Timeout].
  destruct (mergeHeaders seedH2 _ _ _) as [hobjs2 fh2] eqn:Hh2.
  destruct (mergeParams seedP2 _ _ _) as [pobjs2 fp2] eqn:Hp2.
  assert (Hkeys : forall l, Headers B = Some l ->
                            NoDup (canonicalKeys (deref (headerObjs hp) l))).
  { intros l Hl. unfold configHeaders, hdr in Hdistinct. by rewrite Hl in Hdistinct. }
  destruct (mergeHeaders_twice seedH1 seedH2 (headerObjs hp) (Headers A) (Headers B)
              Hkeys _ _ _ _ Hh1 Hh2) as [-> Hh].
  destruct (mergeParams_twice _ _ _ _ _ _ _ _ _ Hp1 Hp2) as [-> Hp].
  unfold configValue, hdr, prm. simpl. rewrite Hh, Hp.
  f_equal.
  - by repeat case_decide.
  - by repeat case_decide.
  - by destruct (Body B).
  - by repeat case_decide.
Qed.
End MergeConfigFacts.

(** [POST] overrides [GET]; an empty URL leaves the base URL. *)
Lemma merge_method_url_precedence_witness :
  let merged := (mergeConfig [] [] Sample.store Sample.base Sample.post).2 in
  Method merged = "POST"%string /\ URL merged = "http://example.test"%string /\
  Method (mergeConfig [] [] Sample.store Sample.base Sample.override).2 = "GET"%string.
Proof.
  destruct (merge_method_url_precedence [] [] Sample.store Sample.base Sample.post)
    as (Hm & _ & _ & Hu).
  destruct (merge_method_url_precedence [] [] Sample.store Sample.base Sample.override)
    as (_ & Hm' & _ & _).
  split; [|split].
  - apply Hm. discriminate.
  - apply Hu. reflexivity.
  - apply Hm'. reflexivity.
Defined.

(** C2. [mergeConfig] on a base with header map 0 holding [A: 1] and
    parameter map 0 holding [p: 1], and an override holding [A: 2] and
    [p: 2]: the merged configuration points to the very maps of the base,
    which now hold [A: 2] and [p: 2]; and a later write through the merged
    configuration shows through the base. *)
Theorem merge_writes_into_base seedH seedP :
  let '(hp', merged) :=
    mergeConfig seedH seedP Sample.store Sample.base Sample.override in
  (Headers merged = Headers Sample.base /\
   configHeaders Sample.store Sample.base !! "A"%string = Some ["1"%string] /\
   configHeaders hp' Sample.base !! "A"%string = Some ["2"%string]) /\
  (Params merged = Params Sample.base /\
   prm Sample.store 0%nat !! "p"%string = Some "1"%string /\
   prm hp' 0%nat !! "p"%string = Some "2"%string) /\
  match Headers merged with
  | Some l =>
      configHeaders
        (mkHeap (<[l := Header_Set (hdr hp' l) "B" "x"]> (headerObjs hp'))
                (paramObjs hp'))
        Sample.base !! "B"%string = Some ["x"%string]
  | None => False
  end.
Proof.
  unfold mergeConfig, mergeHeaders, mergeParams, Sample.base, Sample.override.
  cbn [Headers Params].
  rewrite (rangeKeys_single seedH _ "A"%string ["2"%string]) by reflexivity.
  rewrite (rangeKeys_single seedP _ "p"%string "2"%string) by reflexivity.
  split; [|split].
  - by vm_compute.
  - by vm_compute.
  - by vm_compute.
Qed.

(** C3. [mergeConfig] with an override whose header map holds
    [A: 2, 3]: the merged configuration holds [A: 3] alone. *)
Theorem override_list_truncated seedH seedP :
  let '(hp', merged) :=
    mergeConfig seedH seedP Sample.store Sample.base Sample.multi in
  Header_Values (configHeaders Sample.store Sample.multi) "A"
  = ["2"; "3"]%string /\
  Header_Values (configHeaders hp' merged) "A" = ["3"]%string.
Proof.
  unfold mergeConfig, mergeHeaders, mergeParams, Sample.base, Sample.multi.
  cbn [Headers Params].
  rewrite (rangeKeys_single seedH _ "A"%string ["2"; "3"]%string) by reflexivity.
  by vm_compute.
Qed.

(** C7 does not hold for every override. The override holds [a: 1] and
    [A: 2], two keys with one canonical form. Visited as [a], [A] the
    first merge leaves [A: 2]; visited as [A], [a] the second merge leaves
    [A: 1]. *)
Lemma merge_not_idempotent_on_colliding_keys :
  let '(hp1, M1) := mergeConfig [] [] Sample.store Sample.bare Sample.colliding in
  let '(hp2, M2) := mergeConfig [1%nat] [] hp1 M1 Sample.colliding in
  configValue hp2 M2 ≠ configValue hp1 M1.
Proof.
  vm_compute. intros Heq.
  apply (f_equal (fun cv => h ← cvHeaders cv; h !! "A"%string)) in Heq.
  vm_compute in Heq. discriminate.
Qed.

(** An override with a key not in canonical form and a key with two
    values, merged twice under four different orders. *)
Lemma merge_idempotent_witness :
  let '(hp1, M1) := mergeConfig [0%nat] [1%nat] Sample.store Sample.base Sample.mixed in
  let '(hp2, M2) := mergeConfig [1%nat] [0%nat] hp1 M1 Sample.mixed in
  configValue hp2 M2 = configValue hp1 M1.
Proof.
  apply merge_idempotent.
  apply (bool_decide_unpack _). vm_compute. exact I.
Defined.

(** ** Messages *)

(** The message of the error of the failing pipeline names the stage and
    the index; the message of a [RequestError] holds the status code, as
    the test of the 500 answer expects. *)
Example interceptor_error_message :
  Error (ErrorfIdx "request" 0 (ErrForeign "boom"))
  = "request interceptor 0 failed: boom"%string.
Proof. reflexivity. Qed.

Example request_error_message :
  Error (ErrRequest (mkRequestError 500 "GET" "http://example.test"
                                    "Internal Server Error" ""))
  = ("request to GET http://example.test failed with status code 500: " +:+
     "Internal Server Error" +:+ newline +:+ "Response Body: ")%string.
Proof. vm_compute. reflexivity. Qed.

Example wrapped_cause :
  Unwrap (ErrorfIdx "request" 0 (ErrForeign "boom")) = Some (ErrForeign "boom").
Proof. reflexivity. Qed.

(** The same when both configurations point to one header map, here the
    map with a key not in canonical form and a key with two values. *)
Example merge_twice_sharing_a_map :
  let shared := mkConfig "GET" "http://example.test" (Some 4%nat) None None 0 in
  let '(hp1, M1) := mergeConfig [1%nat] [] Sample.store shared shared in
  let '(hp2, M2) := mergeConfig [2%nat; 0%nat] [] hp1 M1 shared in
  configValue hp2 M2 = configValue hp1 M1 /\
  Header_Values (configHeaders hp1 M1) "accept" = ["text/html"%string] /\
  Header_Values (configHeaders hp1 M1) "x-id" = ["2"%string].
Proof. by vm_compute. Qed.

(** * Further properties of the package *)

(** ** mergeConfig: the scalar fields *)

(** X1. The merged body is the override's whenever that is not nil, an
    empty body included, and the base's otherwise; the merged timeout is
    the override's when that is not 0 and the base's when it is. *)
Theorem merge_body_timeout_precedence seedH seedP hp A B :
  let merged := (mergeConfig seedH seedP hp A B).2 in
  (forall b, Body B = Some b -> Body merged = Some b) /\
  (Body B = None -> Body merged = Body A) /\
  (Timeout B ≠ 0 -> Timeout merged = Timeout B) /\
  (Timeout B = 0 -> Timeout merged = Timeout A).
Proof.
  unfold mergeConfig.
  destruct (mergeHeaders _ _ _ _) as [hobjs fh].
  destruct (mergeParams _ _ _ _) as [pobjs fp]. simpl.
  split; [|split; [|split]].
  - by intros b ->.
  - by intros ->.
  - intros Ht. by rewrite decide_True.
  - intros Ht. by rewrite decide_False by (by intros ?).
Qed.

Lemma merge_body_timeout_precedence_witness :
  let merged :=
    (mergeConfig [] [] Sample.store
                 (mkConfig "POST" "" None None (Some [x61%byte]) 10)
                 (mkConfig "" "" None None (Some []) 0)).2 in
  Body merged = Some [] /\ Timeout merged = 10 /\
  Body (mergeConfig [] [] Sample.store
                    (mkConfig "POST" "" None None (Some [x61%byte]) 10)
                    (mkConfig "" "" None None None 3)).2 = Some [x61%byte] /\
  Timeout (mergeConfig [] [] Sample.store
                       (mkConfig "POST" "" None None (Some [x61%byte]) 10)
                       (mkConfig "" "" None None None 3)).2 = 3.
Proof.
  destruct (merge_body_timeout_precedence [] [] Sample.store
              (mkConfig "POST" "" None None (Some [x61%byte]) 10)
              (mkConfig "" "" None None (Some []) 0)) as (Hb & _ & _ & Ht).
  destruct (merge_body_timeout_precedence [] [] Sample.store
              (mkConfig "POST" "" None None (Some [x61%byte]) 10)
              (mkConfig "" "" None None None 3)) as (_ & Hb' & Ht' & _).
  split; [|split; [|split]].
  - apply Hb. reflexivity.
  - apply Ht. reflexivity.
  - apply Hb'. reflexivity.
  - apply Ht'. discriminate.
Defined.

(** ** mergeConfig: which map objects are written *)

Section MergeFrameFacts.
Context {V : Type}.
Implicit Types (objs : Objs V).

Lemma alloc_lookup_ne objs objs' l l' :
  alloc objs = (objs', l) -> l' ≠ l -> objs' !! l' = objs !! l'.
Proof. intros [= <- <-] Hne. by apply lookup_insert_ne. Qed.

Lemma alloc_lookup_new objs objs' l :
  alloc objs = (objs', l) -> objs' !! l = Some ∅.
Proof. intros [= <- <-]. apply lookup_insert_eq. Qed.
End MergeFrameFacts.

Lemma mergeHeaders_loop_frame d u keys (objs : Objs (list string)) l :
  l ≠ d -> fold_left (mergeHeaders_step d u) keys objs !! l = objs !! l.
Proof.
  intros Hne. revert objs. induction keys as [|key keys IH]; intros objs; [done|].
  cbn [fold_left]. rewrite IH. unfold mergeHeaders_step.
  destruct (deref objs u !! key) as [values|]; [|done].
  clear IH. revert objs. induction values as [|v values IHv]; intros objs; [done|].
  cbn [fold_left]. rewrite IHv. by apply lookup_insert_ne.
Qed.

Lemma mergeParams_loop_frame d u keys (objs : Objs string) l :
  l ≠ d -> fold_left (mergeParams_step d u) keys objs !! l = objs !! l.
Proof.
  intros Hne. revert objs. induction keys as [|key keys IH]; intros objs; [done|].
  cbn [fold_left]. rewrite IH. unfold mergeParams_step.
  destruct (deref objs u !! key) as [value|]; [|done].
  by apply lookup_insert_ne.
Qed.

Lemma mergeHeaders_frame seed objs dA u objs' d :
  mergeHeaders seed objs dA u = (objs', d) ->
  (forall l, l ≠ d -> objs' !! l = objs !! l) /\
  (forall l, dA = Some l -> d = l) /\
  (dA = None -> objs !! d = None).
Proof.
  unfold mergeHeaders.
  destruct (match dA with None => alloc objs | Some d => (objs, d) end)
    as [objs0 d0] eqn:Hstart.
  intros Hres.
  assert (Hd : d = d0) by (destruct u; by injection Hres).
  subst d. split; [|split].
  - intros l Hne.
    assert (H0 : objs0 !! l = objs !! l).
    { destruct dA as [dd|]; [by injection Hstart as <- <-|].
      by apply (alloc_lookup_ne _ _ _ _ Hstart). }
    destruct u as [u|]; injection Hres as <-; [|done].
    by rewrite mergeHeaders_loop_frame.
  - intros l ->. by injection Hstart.
  - intros ->. by apply (alloc_fresh _ _ _ Hstart).
Qed.

Lemma mergeParams_frame seed objs dA u objs' d :
  mergeParams seed objs dA u = (objs', d) ->
  (forall l, l ≠ d -> objs' !! l = objs !! l) /\
  (forall l, dA = Some l -> d = l) /\
  (dA = None -> objs !! d = None).
Proof.
  unfold mergeParams.
  destruct (match dA with None => alloc objs | Some d => (objs, d) end)
    as [objs0 d0] eqn:Hstart.
  intros Hres.
  assert (Hd : d = d0) by (destruct u; by injection Hres).
  subst d. split; [|split].
  - intros l Hne.
    assert (H0 : objs0 !! l = objs !! l).
    { destruct dA as [dd|]; [by injection Hstart as <- <-|].
      by apply (alloc_lookup_ne _ _ _ _ Hstart). }
    destruct u as [u|]; injection Hres as <-; [|done].
    by rewrite mergeParams_loop_frame.
  - intros l ->. by injection Hstart.
  - intros ->. by apply (alloc_fresh _ _ _ Hstart).
Qed.

(** X2. [mergeConfig] writes to one header map and to one parameter map
    only, those of the merged configuration: every other map object of
    the store is left as it was, the maps of the override included when
    they are not the maps of the base. A nil base map is replaced by a
    map object that did not exist before, so that no existing object is
    written at all. *)
Theorem merge_writes_only_to_merged_maps seedH seedP hp A B :
  let '(hp', merged) := mergeConfig seedH seedP hp A B in
  (forall l, Headers merged ≠ Some l -> headerObjs hp' !! l = headerObjs hp !! l) /\
  (forall l, Params merged ≠ Some l -> paramObjs hp' !! l = paramObjs hp !! l) /\
  (Headers A = None ->
   forall l, is_Some (headerObjs hp !! l) -> headerObjs hp' !! l = headerObjs hp !! l) /\
  (Params A = None ->
   forall l, is_Some (paramObjs hp !! l) -> paramObjs hp' !! l = paramObjs hp !! l).
Proof.
  unfold mergeConfig.
  destruct (mergeHeaders _ _ _ _) as [hobjs fh] eqn:Hh.
  destruct (mergeParams _ _ _ _) as [pobjs fp] eqn:Hp.
  cbn [headerObjs paramObjs Headers Params].
  apply mergeHeaders_frame in Hh as (Hhf & _ & Hhn).
  apply mergeParams_frame in Hp as (Hpf & _ & Hpn).
  split; [|split; [|split]].
  - intros l Hl. apply Hhf. congruence.
  - intros l Hl. apply Hpf. congruence.
  - intros HA l [m Hm]. apply Hhf. intros ->. rewrite Hhn in Hm; done.
  - intros HA l [m Hm]. apply Hpf. intros ->. rewrite Hpn in Hm; done.
Qed.

Lemma merge_writes_only_to_merged_maps_witness :
  let '(hp', merged) :=
    mergeConfig [] [] Sample.store Sample.bare Sample.override in
  headerObjs hp' !! 1%nat = headerObjs Sample.store !! 1%nat /\
  paramObjs hp' !! 1%nat = paramObjs Sample.store !! 1%nat /\
  headerObjs hp' !! 0%nat = headerObjs Sample.store !! 0%nat.
Proof.
  pose proof (merge_writes_only_to_merged_maps [] [] Sample.store
                Sample.bare Sample.override) as H.
  destruct (mergeConfig [] [] Sample.store Sample.bare Sample.override)
    as [hp' merged] eqn:Hm.
  destruct H as (Hh & Hp & Hnil & _).
  assert (Hmerged : merged = (mergeConfig [] [] Sample.store Sample.bare
                                          Sample.override).2)
    by (by rewrite Hm).
  split; [|split].
  - apply Hh. rewrite Hmerged. by vm_compute.
  - apply Hp. rewrite Hmerged. by vm_compute.
  - apply Hnil; [reflexivity|]. vm_compute. eauto.
Defined.

(** ** mergeConfig: the contents of the merged maps *)

(** A new object is empty, as is the map behind a pointer to no object. *)
Lemma deref_alloc_any {V : Type} (objs objs' : Objs V) l l' :
  alloc objs = (objs', l) -> deref objs' l' = deref objs l'.
Proof.
  intros Halloc. destruct (decide (l' = l)) as [->|Hne].
  - rewrite (deref_alloc_new _ _ _ Halloc). unfold deref.
    by rewrite (alloc_fresh _ _ _ Halloc).
  - by apply (deref_alloc_old _ _ _ _ Halloc).
Qed.

Lemma putAll_rangeKeys seed (m p : ParamMap) :
  putAll m (rangeKeys seed m) p = m ∪ p.
Proof.
  apply map_eq. intros K. rewrite putAll_lookup.
  destruct (m !! K) as [value|] eqn:HK.
  - rewrite decide_True by (by apply elem_of_rangeKeys).
    symmetry. by apply lookup_union_Some_l.
  - rewrite lookup_union_r by done. by case_decide.
Qed.

Lemma mergeParams_contents seed objs dA u objs' d :
  mergeParams seed objs dA u = (objs', d) ->
  deref objs' d = from_option (deref objs) ∅ u ∪ from_option (deref objs) ∅ dA.
Proof.
  unfold mergeParams.
  destruct (match dA with None => alloc objs | Some d => (objs, d) end)
    as [objs0 d0] eqn:Hstart.
  assert (Hbase : deref objs0 d0 = from_option (deref objs) ∅ dA).
  { destruct dA as [dd|]; [by injection Hstart as <- <-|].
    by apply (deref_alloc_new _ _ _ Hstart). }
  assert (Hany : forall l, deref objs0 l = deref objs l).
  { intros l. destruct dA as [dd|]; [by injection Hstart as <- <-|].
    by apply (deref_alloc_any _ _ _ _ Hstart). }
  destruct u as [u|]; intros [= <- <-]; cbn [from_option].
  - rewrite <- Hbase, <- (Hany u).
    destruct (decide (u = d0)) as [->|Hne].
    + by rewrite mergeParams_loop_alias, (idemp_L (∪)).
    + destruct (mergeParams_loop_deref d0 u (rangeKeys seed (deref objs0 u)) objs0 Hne)
        as [-> _].
      apply putAll_rangeKeys.
  - by rewrite Hbase, (left_id_L ∅ (∪)).
Qed.

Lemma mergeHeaders_contents seed objs dA u objs' d :
  NoDup (canonicalKeys (deref objs u)) ->
  mergeHeaders seed objs dA (Some u) = (objs', d) ->
  deref objs' d =
  lastSets (deref objs u) (rangeKeys seed (deref objs u))
  ∪ from_option (deref objs) ∅ dA.
Proof.
  intros Hcanon. unfold mergeHeaders.
  destruct (match dA with None => alloc objs | Some d => (objs, d) end)
    as [objs0 d0] eqn:Hstart.
  assert (Hbase : deref objs0 d0 = from_option (deref objs) ∅ dA).
  { destruct dA as [dd|]; [by injection Hstart as <- <-|].
    by apply (deref_alloc_new _ _ _ Hstart). }
  assert (Hany : forall l, deref objs0 l = deref objs l).
  { intros l. destruct dA as [dd|]; [by injection Hstart as <- <-|].
    by apply (deref_alloc_any _ _ _ _ Hstart). }
  intros [= <- <-].
  destruct (mergeHeaders_loop_deref d0 u (rangeKeys seed (deref objs0 u)) objs0)
    as [-> _].
  - apply NoDup_rangeKeys.
  - by rewrite rangeKeys_perm, Hany.
  - by rewrite Hbase, Hany.
Qed.

(** X3. The merged parameter map holds, for every key, the value of the
    override when the override has the key and the value of the base
    otherwise, whatever the order of the loop and also when both
    configurations share the map; a nil map counts as empty. *)
Theorem merge_params_override_then_base seedH seedP hp A B :
  let '(hp', merged) := mergeConfig seedH seedP hp A B in
  configParams hp' merged = configParams hp B ∪ configParams hp A.
Proof.
  unfold mergeConfig.
  destruct (mergeHeaders _ _ _ _) as [hobjs fh].
  destruct (mergeParams _ _ _ _) as [pobjs fp] eqn:Hp.
  unfold configParams, prm. cbn [Params paramObjs].
  rewrite (mergeParams_contents _ _ _ _ _ _ Hp).
  by destruct (Params A), (Params B).
Qed.

(** X4. When the canonical forms of the header keys of the override are
    pairwise distinct, every key of the override with at least one value
    is found in the merged configuration, under any spelling of its
    letter case, with the last value of the override's list and nothing
    else: the base's values under that key are replaced, not kept. *)
Theorem merge_headers_override_wins seedH seedP hp A B :
  NoDup (canonicalKeys (configHeaders hp B)) ->
  let '(hp', merged) := mergeConfig seedH seedP hp A B in
  forall key values value,
    configHeaders hp B !! key = Some values ->
    last values = Some value ->
    Header_Values (configHeaders hp' merged) key = [value].
Proof.
  intros Hcanon. unfold mergeConfig.
  destruct (mergeHeaders _ _ _ _) as [hobjs fh] eqn:Hh.
  destruct (mergeParams _ _ _ _) as [pobjs fp].
  intros key values value Hkey Hlast.
  unfold configHeaders, hdr in *. cbn [Headers headerObjs].
  destruct (Headers B) as [u|]; [|by rewrite lookup_empty in Hkey].
  by apply (mergeHeaders_keeps_last seedH (headerObjs hp) (Headers A) u key values).
Qed.

Lemma merge_headers_override_wins_witness :
  let '(hp', merged) :=
    mergeConfig [1%nat] [] Sample.store Sample.base Sample.mixed in
  Header_Values (configHeaders hp' merged) "ACCEPT" = ["text/html"%string] /\
  Header_Values (configHeaders hp' merged) "x-id" = ["2"%string].
Proof.
  pose proof (merge_headers_override_wins [1%nat] [] Sample.store
                Sample.base Sample.mixed) as H.
  destruct (mergeConfig [1%nat] [] Sample.store Sample.base Sample.mixed)
    as [hp' merged].
  assert (Hcanon : NoDup (canonicalKeys (configHeaders Sample.store Sample.mixed))).
  { apply (bool_decide_unpack _). vm_compute. exact I. }
  specialize (H Hcanon). split.
  - apply (H "accept"%string ["text/html"%string]); reflexivity.
  - apply (H "X-Id"%string ["1"; "2"]%string); reflexivity.
Defined.

(** X5. Under the same condition, a key that is the canonical form of no
    key of the override with values keeps in the merged configuration
    exactly what the base has under it: keys that only the base has
    survive, a key that the override lists with no value does not erase
    the base's entry, and an override without header map changes
    nothing. *)
Theorem merge_headers_keeps_other_keys seedH seedP hp A B :
  NoDup (canonicalKeys (configHeaders hp B)) ->
  let '(hp', merged) := mergeConfig seedH seedP hp A B in
  forall K,
    (forall key values,
        configHeaders hp B !! key = Some values -> values ≠ [] ->
        CanonicalMIMEHeaderKey key ≠ K) ->
    configHeaders hp' merged !! K = configHeaders hp A !! K.
Proof.
  intros Hcanon. unfold mergeConfig.
  destruct (mergeHeaders _ _ _ _) as [hobjs fh] eqn:Hh.
  destruct (mergeParams _ _ _ _) as [pobjs fp].
  intros K Hother.
  unfold configHeaders, hdr in *. cbn [Headers headerObjs].
  assert (Hbase : from_option (deref (headerObjs hp)) ∅ (Headers A) !! K
                  = match Headers A with
                    | Some l => deref (headerObjs hp) l
                    | None => ∅
                    end !! K) by (by destruct (Headers A)).
  rewrite <- Hbase. clear Hbase.
  destruct (Headers B) as [u|].
  - rewrite (mergeHeaders_contents _ _ _ _ _ _ Hcanon Hh).
    apply lookup_union_r.
    destruct (lastSets _ _ !! K) as [x|] eqn:Hx; [|done].
    apply lastSets_lookup in Hx as (key & values & value & _ & -> & Hkey & Hlast & _).
    exfalso. apply (Hother key values); [done| |done].
    intros ->. discriminate.
  - unfold mergeHeaders in Hh.
    destruct (Headers A) as [d|] eqn:HA.
    + by injection Hh as <- <-.
    + destruct (alloc (headerObjs hp)) as [objs0 d0] eqn:Halloc.
      injection Hh as <- <-. by rewrite (deref_alloc_new _ _ _ Halloc).
Qed.

Lemma merge_headers_keeps_other_keys_witness :
  let '(hp', merged) :=
    mergeConfig [1%nat] [] Sample.store Sample.base Sample.mixed in
  configHeaders hp' merged !! "A"%string = Some ["1"%string].
Proof.
  pose proof (merge_headers_keeps_other_keys [1%nat] [] Sample.store
                Sample.base Sample.mixed) as H.
  destruct (mergeConfig [1%nat] [] Sample.store Sample.base Sample.mixed)
    as [hp' merged].
  assert (Hcanon : NoDup (canonicalKeys (configHeaders Sample.store Sample.mixed))).
  { apply (bool_decide_unpack _). vm_compute. exact I. }
  rewrite (H Hcanon "A"%string); [reflexivity|].
  intros key values Hkey _.
  assert (Hin : key ∈ ["accept"; "X-Id"]%string).
  { assert (Hk : key ∈ (map_to_list (configHeaders Sample.store Sample.mixed)).*1).
    { apply list_elem_of_fmap. exists (key, values). split; [done|].
      by apply elem_of_map_to_list. }
    vm_compute in Hk. exact Hk. }
  apply elem_of_cons in Hin as [->|Hin]; [by vm_compute|].
  apply elem_of_cons in Hin as [->|Hin]; [by vm_compute|].
  by apply elem_of_nil in Hin.
Defined.

(** ** The interceptor pipeline: errors and composition *)

Section PipelineShape.
Context {Ctx W : Type}.
Implicit Types (ics pre post : list (Interceptor Ctx W)) (w : W).

Lemma applyRequestFrom_error idx ics w req w' v e :
  applyRequestFrom idx ics w req = (w', Returns v (Some e)) ->
  v = None /\
  exists k cause i f wk reqk r,
    e = ErrorfIdx "request" (idx + k) cause /\
    ics !! k = Some i /\ icRequest i = Some f /\
    f wk reqk = (w', (r, Some cause)).
Proof.
  revert idx w req. induction ics as [|i ics IH]; intros idx w req; [done|].
  cbn [applyRequestFrom]. destruct (icRequest i) as [f|] eqn:Hf; [|done].
  destruct (f w req) as [w1 [req1 [cause|]]] eqn:Hcall.
  - intros [= <- <- <-]. split; [done|].
    exists 0%nat, cause, i, f, w, req, req1. by rewrite Nat.add_0_r.
  - intros Hrest. destruct (IH _ _ _ Hrest)
      as (-> & k & cause & i' & f' & wk & reqk & r & -> & Hk & Hf' & Hcall').
    split; [done|]. exists (S k), cause, i', f', wk, reqk, r.
    split; [f_equal; lia|done].
Qed.

Lemma applyResponseFrom_error idx ics w resp w' v e :
  applyResponseFrom idx ics w resp = (w', Returns v (Some e)) ->
  v = None /\
  exists k cause i f wk respk r,
    e = ErrorfIdx "response" (idx + k) cause /\
    ics !! k = Some i /\ icResponse i = Some f /\
    f wk respk = (w', (r, Some cause)).
Proof.
  revert idx w resp. induction ics as [|i ics IH]; intros idx w resp; [done|].
  cbn [applyResponseFrom]. destruct (icResponse i) as [f|] eqn:Hf; [|done].
  destruct (f w resp) as [w1 [resp1 [cause|]]] eqn:Hcall.
  - intros [= <- <- <-]. split; [done|].
    exists 0%nat, cause, i, f, w, resp, resp1. by rewrite Nat.add_0_r.
  - intros Hrest. destruct (IH _ _ _ Hrest)
      as (-> & k & cause & i' & f' & wk & respk & r & -> & Hk & Hf' & Hcall').
    split; [done|]. exists (S k), cause, i', f', wk, respk, r.
    split; [f_equal; lia|done].
Qed.

(** X6. A stage never returns an error together with a value. An error
    of a stage always names a registered interceptor: its index is the
    position of an interceptor of the manager, and its cause is the error
    that the function of that interceptor returned, in the world that
    function left. *)
Theorem stage_error_names_an_interceptor (im : InterceptorManager Ctx W) w :
  (forall req w' v e,
      ApplyRequestInterceptors im w req = (w', Returns v (Some e)) ->
      v = None /\
      exists idx cause i f wk reqk r,
        e = ErrorfIdx "request" idx cause /\
        interceptors im !! idx = Some i /\ icRequest i = Some f /\
        f wk reqk = (w', (r, Some cause))) /\
  (forall resp w' v e,
      ApplyResponseInterceptors im w resp = (w', Returns v (Some e)) ->
      v = None /\
      exists idx cause i f wk respk r,
        e = ErrorfIdx "response" idx cause /\
        interceptors im !! idx = Some i /\ icResponse i = Some f /\
        f wk respk = (w', (r, Some cause))).
Proof.
  split.
  - intros req w' v e H. by apply applyRequestFrom_error in H.
  - intros resp w' v e H. by apply applyResponseFrom_error in H.
Qed.

Lemma applyRequestFrom_shift n idx ics w req :
  applyRequestFrom (n + idx) ics w req
  = prod_map id (shiftIndex n) (applyRequestFrom idx ics w req).
Proof.
  revert idx w req. induction ics as [|i ics IH]; intros idx w req; [done|].
  cbn [applyRequestFrom]. destruct (icRequest i) as [f|]; [|done].
  destruct (f w req) as [w1 [req1 [cause|]]]; [done|].
  rewrite <- IH. f_equal. lia.
Qed.

Lemma applyResponseFrom_shift n idx ics w resp :
  applyResponseFrom (n + idx) ics w resp
  = prod_map id (shiftIndex n) (applyResponseFrom idx ics w resp).
Proof.
  revert idx w resp. induction ics as [|i ics IH]; intros idx w resp; [done|].
  cbn [applyResponseFrom]. destruct (icResponse i) as [f|]; [|done].
  destruct (f w resp) as [w1 [resp1 [cause|]]]; [done|].
  rewrite <- IH. f_equal. lia.
Qed.

(** X7. Applying a registry made of two parts is applying the first part
    and, when it returns without error, the second part to what the first
    produced, the index of an error of the second part being moved up by
    the length of the first; when the first part fails or panics, so does
    the whole, in the same way. *)
Theorem stages_compose pre post w :
  (forall req,
      ApplyRequestInterceptors (mkInterceptorManager (pre ++ post)) w req =
      match ApplyRequestInterceptors (mkInterceptorManager pre) w req with
      | (w1, Returns req1 None) =>
          prod_map id (shiftIndex (length pre))
                   (ApplyRequestInterceptors (mkInterceptorManager post) w1 req1)
      | stopped => stopped
      end) /\
  (forall resp,
      ApplyResponseInterceptors (mkInterceptorManager (pre ++ post)) w resp =
      match ApplyResponseInterceptors (mkInterceptorManager pre) w resp with
      | (w1, Returns resp1 None) =>
          prod_map id (shiftIndex (length pre))
                   (ApplyResponseInterceptors (mkInterceptorManager post) w1 resp1)
      | stopped => stopped
      end).
Proof.
  unfold ApplyRequestInterceptors, ApplyResponseInterceptors. cbn [interceptors].
  split.
  - intros req. rewrite applyRequestFrom_app.
    destruct (applyRequestFrom 0 pre w req) as [w1 [req1 [e|]|]]; [done| |done].
    rewrite <- applyRequestFrom_shift. f_equal. lia.
  - intros resp. rewrite applyResponseFrom_app.
    destruct (applyResponseFrom 0 pre w resp) as [w1 [resp1 [e|]|]]; [done| |done].
    rewrite <- applyResponseFrom_shift. f_equal. lia.
Qed.
End PipelineShape.

Lemma stage_error_names_an_interceptor_witness :
  exists idx i,
    interceptors (mkInterceptorManager [Mock.T1; Mock.T1fails; Mock.T2]) !! idx
    = Some i /\ idx = 1%nat /\ i = Mock.T1fails.
Proof.
  destruct (stage_error_names_an_interceptor
              (mkInterceptorManager [Mock.T1; Mock.T1fails; Mock.T2])
              ([] : Mock.World)) as [Hreq _].
  edestruct (Hreq (Some Mock.plain))
    as (_ & idx & cause & i & f & wk & reqk & r & He & Hi & _); [reflexivity|].
  injection He as <- _. exists 1%nat, i. split; [exact Hi|].
  split; [reflexivity|]. by injection Hi.
Defined.

(** ** Request: what it returns and what it leaves behind *)

Section DispatchShape.
Context {Ctx W : Type}.
Variable NewRequestWithContext :
  Ctx -> string -> string -> option (list byte) -> HttpRequest Ctx + GoError.
Variable StatusText : Z -> string.
Implicit Types (c : Client Ctx W) (req : HttpRequest Ctx) (w : W) (hp : Heap).

(** What [Request_prepare] returns early is a panic or an error of the
    first two kinds, never a response. *)
Lemma Request_prepare_early seedH seedP seedC c ctx cfg hp w hp' w' v e :
  Request_prepare NewRequestWithContext seedH seedP seedC c ctx cfg hp w
  = (hp', w', inl (Returns v e)) ->
  v = None /\ exists err, e = Some err /\ RequestFailure err.
Proof.
  unfold Request_prepare, prepareRequestBody.
  destruct (mergeConfig _ _ _ _ _) as [hpm fc].
  destruct (NewRequestWithContext _ _ _ _) as [req0|err].
  2: { intros [= <- <- <- <-]. split; [done|]. eexists. split; [done|]. constructor. }
  destruct (interceptorManager c) as [im|].
  - destruct (ApplyRequestInterceptors im w (Some req0)) as [w1 o] eqn:Hstage.
    destruct o as [[req1|] [err|]|]; try (intros [=]; fail).
    + apply applyRequestFrom_error in Hstage
        as (_ & k & cause & _ & _ & _ & _ & _ & -> & _).
      intros [= <- <- <- <-]. split; [done|]. eexists. split; [done|]. constructor.
    + destruct (copyHeaders _ _ _ _); intros [=].
    + apply applyRequestFrom_error in Hstage
        as (_ & k & cause & _ & _ & _ & _ & _ & -> & _).
      intros [= <- <- <- <-]. split; [done|]. eexists. split; [done|]. constructor.
  - destruct (copyHeaders _ _ _ _); intros [=].
Qed.

(** X8. When [Request] returns, it returns a response and no error, or
    no response and an error, never both and never neither. The error is
    of one of five kinds: the request could not be created, a request
    interceptor failed (the cause names its index), the transport failed,
    the status was 400 or more, or the body could not be read. Preparing
    the body never fails. *)
Theorem Request_returns_response_or_error seedH seedP seedC c ctx cfg hp w :
  forall hp' w' v e,
    Request NewRequestWithContext StatusText seedH seedP seedC c ctx cfg hp w
    = (hp', w', Returns v e) ->
    (is_Some v /\ e = None) \/
    (v = None /\ exists err, e = Some err /\ RequestFailure err).
Proof.
  intros hp' w' v e. unfold Request.
  destruct (Request_prepare _ _ _ _ _ _ _ _ _) as [[hp1 w1] [early|req]] eqn:Hprep.
  - intros [= <- <- ->]. right. by eapply Request_prepare_early.
  - unfold Request_send, HandleResponseError, ParseResponse.
    destruct (httpClient c w1 req) as [w2 [resp|err]].
    + destruct (decide (400 ≤ hr_StatusCode resp)) as [Hcode|Hcode].
      * intros [= <- <- <- <-]. right. split; [done|].
        eexists. split; [done|]. by constructor.
      * destruct (bs_err (hr_Body resp)) as [err|]; intros [= <- <- <- <-].
        -- right. split; [done|]. eexists. split; [done|]. constructor.
        -- left. by split.
    + intros [= <- <- <- <-]. right. split; [done|].
      eexists. split; [done|]. constructor.
Qed.

(** X9. A response that [Request] returns is the answer of the
    transport to the request that was sent: the same status text, the
    same status code, the headers, and the whole body as it was read. Its
    status is below 400, but it need not be a success: [IsSuccess] holds
    for it exactly when the status is between 200 and 299. *)
Theorem Request_response_is_the_answer seedH seedP seedC c ctx cfg hp w :
  forall hp' w' r e,
    Request NewRequestWithContext StatusText seedH seedP seedC c ctx cfg hp w
    = (hp', w', Returns (Some r) e) ->
    e = None /\
    exists w1 req resp,
      Request_prepare NewRequestWithContext seedH seedP seedC c ctx cfg hp w
      = (hp', w1, inr req) /\
      httpClient c w1 req = (w', inl resp) /\
      hr_StatusCode resp < 400 /\
      bs_err (hr_Body resp) = None /\
      r = mkResponse (hr_Status resp) (hr_StatusCode resp)
                     (bs_data (hr_Body resp)) (hr_Header resp) /\
      (IsSuccess r = true <-> 200 ≤ hr_StatusCode resp < 300).
Proof.
  intros hp' w' r e. unfold Request.
  destruct (Request_prepare _ _ _ _ _ _ _ _ _) as [[hp1 w1] [early|req]] eqn:Hprep.
  - intros [= <- <- ->]. by apply Request_prepare_early in Hprep as [? _].
  - unfold Request_send, HandleResponseError, ParseResponse.
    destruct (httpClient c w1 req) as [w2 [resp|err]] eqn:Hdo; [|intros [=]].
    destruct (decide (400 ≤ hr_StatusCode resp)) as [Hcode|Hcode]; [intros [=]|].
    destruct (bs_err (hr_Body resp)) as [err|] eqn:Hread; intros [= <- <- <- <-].
    split; [done|]. exists w1, req, resp.
    repeat (split; [done || lia|]).
    unfold IsSuccess. cbn [StatusCode]. rewrite andb_true_iff. lia.
Qed.

(** X10. Whatever its outcome, an early error and a panic included,
    [Request] leaves the store as the merge of the default configuration
    and the call's configuration leaves it. When the default
    configuration has neither header map nor parameter map, as the
    clients of the tests, no map object that existed before the call is
    changed by it. *)
Theorem Request_store_is_the_merge seedH seedP seedC c ctx cfg hp w :
  let hp' :=
    (Request NewRequestWithContext StatusText seedH seedP seedC c ctx cfg hp w).1.1 in
  hp' = (mergeConfig seedH seedP hp (config c) cfg).1 /\
  (Headers (config c) = None -> Params (config c) = None ->
   (forall l, is_Some (headerObjs hp !! l) -> headerObjs hp' !! l = headerObjs hp !! l) /\
   (forall l, is_Some (paramObjs hp !! l) -> paramObjs hp' !! l = paramObjs hp !! l)).
Proof.
  cbn zeta.
  assert (Hstore :
    (Request NewRequestWithContext StatusText seedH seedP seedC c ctx cfg hp w).1.1
    = (mergeConfig seedH seedP hp (config c) cfg).1).
  { unfold Request, Request_prepare, prepareRequestBody, Request_send.
    destruct (mergeConfig _ _ _ _ _) as [hpm fc].
    destruct (NewRequestWithContext _ _ _ _) as [req0|err]; [|done].
    destruct (match interceptorManager c with
              | Some im => ApplyRequestInterceptors im w (Some req0)
              | None => (w, Returns (Some req0) None)
              end) as [w1 [[req1|] [e|]|]]; try done.
    destruct (copyHeaders _ _ _ _) as [out|]; [|done].
    destruct (httpClient c w1 out) as [w2 [resp|err]]; [|done].
    by destruct (decide (400 ≤ hr_StatusCode resp)). }
  split; [done|]. rewrite Hstore. clear Hstore.
  intros HH HP. unfold mergeConfig.
  destruct (mergeHeaders _ _ _ _) as [hobjs fh] eqn:Hh.
  destruct (mergeParams _ _ _ _) as [pobjs fp] eqn:Hp.
  cbn [fst headerObjs paramObjs].
  apply mergeHeaders_frame in Hh as (Hhf & _ & Hhn).
  apply mergeParams_frame in Hp as (Hpf & _ & Hpn).
  split.
  - intros l [m Hm]. apply Hhf. intros ->. rewrite (Hhn HH) in Hm. done.
  - intros l [m Hm]. apply Hpf. intros ->. rewrite (Hpn HP) in Hm. done.
Qed.

(** X11. [Request] merges the parameters and the timeout of the two
    configurations and then uses neither: the request that is sent, the
    world and the result are the same whatever the parameter maps and the
    timeouts of the default configuration and of the call's configuration
    are, and so are the header maps of the store. *)
Theorem Request_ignores_params_and_timeout
    seedH seedP seedP' seedC c ctx cfg hp w pc tc p t pc' tc' p' t' :
  let run pc tc p t seedP :=
    Request NewRequestWithContext StatusText seedH seedP seedC
            (mkClient (httpClient c) (withParamsTimeout (config c) pc tc)
                      (interceptorManager c))
            ctx (withParamsTimeout cfg p t) hp w in
  (run pc tc p t seedP).2 = (run pc' tc' p' t' seedP').2 /\
  (run pc tc p t seedP).1.2 = (run pc' tc' p' t' seedP').1.2 /\
  headerObjs (run pc tc p t seedP).1.1 = headerObjs (run pc' tc' p' t' seedP').1.1.
Proof.
  cbn zeta.
  unfold Request, Request_prepare, prepareRequestBody, Request_send, mergeConfig,
    copyHeaders, hdr, withParamsTimeout.
  cbn [config httpClient interceptorManager Method URL Headers Params Body Timeout
       headerObjs paramObjs].
  destruct (mergeHeaders _ _ _ _) as [hobjs fh].
  destruct (mergeParams seedP _ _ _) as [pobjs fp].
  destruct (mergeParams seedP' _ _ _) as [pobjs' fp'].
  cbn [config httpClient interceptorManager Method URL Headers Params Body Timeout
       headerObjs paramObjs].
  destruct (NewRequestWithContext _ _ _ _) as [req0|err]; [|done].
  destruct (match interceptorManager c with
            | Some im => ApplyRequestInterceptors im w (Some req0)
            | None => (w, Returns (Some req0) None)
            end) as [w1 [[req1|] [e|]|]]; try done.
  destruct (fold_left _ _ _) as [out|]; [|done].
  destruct (httpClient c w1 out) as [w2 [resp|err]]; [|done].
  by destruct (decide (400 ≤ hr_StatusCode resp)).
Qed.
End DispatchShape.

Lemma Request_returns_response_or_error_witness :
  (exists err,
      (Request Mock.newRequest Mock.statusText [] [] [] (Mock.client 500 [Mock.T1])
               tt (Mock.get "http://example.test") emptyHeap []).2
      = Returns None (Some err) /\ RequestFailure err) /\
  (exists err,
      (Request Mock.newRequest Mock.statusText [] [] []
               (Mock.client 200 [Mock.T1fails])
               tt (Mock.get "http://example.test") emptyHeap []).2
      = Returns None (Some err) /\ RequestFailure err).
Proof.
  split.
  - edestruct (Request_returns_response_or_error Mock.newRequest Mock.statusText
                 [] [] [] (Mock.client 500 [Mock.T1]) tt
                 (Mock.get "http://example.test") emptyHeap [])
      as [[[r Hr] _]|(_ & err & He & Hfail)]; [reflexivity|discriminate Hr|].
    exists err. split; [|exact Hfail]. injection He as <-. reflexivity.
  - edestruct (Request_returns_response_or_error Mock.newRequest Mock.statusText
                 [] [] [] (Mock.client 200 [Mock.T1fails]) tt
                 (Mock.get "http://example.test") emptyHeap [])
      as [[[r Hr] _]|(_ & err & He & Hfail)]; [reflexivity|discriminate Hr|].
    exists err. split; [|exact Hfail]. injection He as <-. reflexivity.
Defined.

Lemma Request_response_is_the_answer_witness :
  exists resp : HttpResponse unit,
    hr_StatusCode resp = 302 /\
    IsSuccess (mkResponse (hr_Status resp) (hr_StatusCode resp)
                          (bs_data (hr_Body resp)) (hr_Header resp)) = false.
Proof.
  edestruct (Request_response_is_the_answer Mock.newRequest Mock.statusText
               [] [] [] (Mock.client 302 [Mock.T1]) tt
               (Mock.get "http://example.test") emptyHeap [])
    as (_ & w1 & req & resp & _ & Hdo & _ & _ & _ & _); [reflexivity|].
  exists resp. injection Hdo as _ <-. split; reflexivity.
Defined.

Lemma Request_store_is_the_merge_witness :
  let hp' :=
    (Request Mock.newRequest Mock.statusText [] [] [] (Mock.client 200 [Mock.T1])
             tt Sample.override Sample.store []).1.1 in
  headerObjs hp' !! 1%nat = headerObjs Sample.store !! 1%nat /\
  paramObjs hp' !! 0%nat = paramObjs Sample.store !! 0%nat.
Proof.
  destruct (Request_store_is_the_merge Mock.newRequest Mock.statusText [] [] []
              (Mock.client 200 [Mock.T1]) tt Sample.override Sample.store [])
    as [_ Hframe].
  destruct Hframe as [Hh Hp]; [reflexivity|reflexivity|].
  split.
  - apply Hh. vm_compute. eauto.
  - apply Hp. vm_compute. eauto.
Defined.

(** ** Request: the headers that are sent *)

Lemma contribution_exact (m : Header) keys key values :
  NoDup (CanonicalMIMEHeaderKey <$> keys) ->
  key ∈ keys -> m !! key = Some values ->
  contribution m keys (CanonicalMIMEHeaderKey key) = values.
Proof.
  intros Hnd Hin Hkey. induction keys as [|key0 keys IH];
    [by apply elem_of_nil in Hin|].
  rewrite fmap_cons in Hnd. apply NoDup_cons in Hnd as [Hfresh Hnd].
  unfold contribution in *. cbn [flat_map].
  apply elem_of_cons in Hin as [<-|Hin].
  - rewrite decide_True by done. unfold entry at 1. rewrite Hkey. cbn [default].
    assert (Hrest : flat_map
              (fun key0 => if decide (CanonicalMIMEHeaderKey key0
                                      = CanonicalMIMEHeaderKey key)
                           then entry m key0 else []) keys = []).
    { clear IH Hnd. induction keys as [|k keys IHk]; [done|].
      cbn [flat_map]. rewrite decide_False.
      - apply IHk. intros Hk. apply Hfresh. rewrite fmap_cons. by right.
      - intros Hk. apply Hfresh. rewrite fmap_cons, Hk. left. }
    by rewrite Hrest, app_nil_r.
  - rewrite decide_False.
    + by apply IH.
    + intros Heq. apply Hfresh. rewrite Heq. by apply list_elem_of_fmap_2.
Qed.

Lemma contribution_none (m : Header) keys K :
  (forall key, key ∈ keys -> is_Some (m !! key) -> CanonicalMIMEHeaderKey key ≠ K) ->
  contribution m keys K = [].
Proof.
  induction keys as [|key keys IH]; intros Hother; [done|].
  unfold contribution in *. cbn [flat_map].
  rewrite IH by (intros k Hk; apply Hother; by right).
  case_decide as HK; [|done].
  unfold entry. destruct (m !! key) as [values|] eqn:Hkey; [|done].
  exfalso. by apply (Hother key); [left|rewrite Hkey|].
Qed.

Section SentHeaders.
Context {Ctx W : Type}.
Variable NewRequestWithContext :
  Ctx -> string -> string -> option (list byte) -> HttpRequest Ctx + GoError.
Implicit Types (c : Client Ctx W) (req : HttpRequest Ctx) (w : W) (hp : Heap).

(** X12. When the canonical forms of the header keys of the final
    configuration are pairwise distinct, the request that is sent is the
    request the interceptors returned with, under each configured key,
    exactly the values it had followed by the configured list, and with
    every other header as it was: nothing is lost, doubled or reordered. *)
Theorem sent_headers_exact
    seedH seedP seedC c ctx cfg hp w hp1 fc req0 w1 req1 pre :
  mergeConfig seedH seedP hp (config c) cfg = (hp1, fc) ->
  NewRequestWithContext ctx (Method fc) (URL fc) (Body fc) = inl req0 ->
  match interceptorManager c with
  | Some im => ApplyRequestInterceptors im w (Some req0)
  | None => (w, Returns (Some req0) None)
  end = (w1, Returns (Some req1) None) ->
  req_Header req1 = Some pre ->
  NoDup (canonicalKeys (configHeaders hp1 fc)) ->
  exists out,
    Request_prepare NewRequestWithContext seedH seedP seedC c ctx cfg hp w
    = (hp1, w1, inr (withHeader req1 out)) /\
    (forall key values,
        configHeaders hp1 fc !! key = Some values ->
        Header_Values out key = Header_Values pre key ++ values) /\
    (forall K,
        (forall key, is_Some (configHeaders hp1 fc !! key) ->
                     CanonicalMIMEHeaderKey key ≠ K) ->
        entry out K = entry pre K).
Proof.
  intros Hmerge Hnew Hstage Hpre Hcanon.
  destruct (copyHeaders_spec seedC hp1 fc req1 pre Hpre) as (out & Hcopy & Hout).
  exists out. split; [|split].
  - unfold Request_prepare, prepareRequestBody.
    by rewrite Hmerge, Hnew, Hstage, Hcopy.
  - intros key values Hkey. unfold Header_Values.
    fold (entry out (CanonicalMIMEHeaderKey key)).
    fold (entry pre (CanonicalMIMEHeaderKey key)).
    rewrite Hout. f_equal. apply contribution_exact; [|by apply elem_of_rangeKeys|done].
    by rewrite rangeKeys_perm.
  - intros K Hother. rewrite Hout, contribution_none; [by rewrite app_nil_r|].
    intros key _ Hkey. by apply Hother.
Qed.
End SentHeaders.

Lemma sent_headers_exact_witness :
  exists hp w req out,
    Request_prepare Mock.newRequest [] [] [] (Mock.taggedClient [Mock.Ttag])
                    tt (Mock.get "http://example.test") Mock.tagged []
    = (hp, w, inr (withHeader req out)) /\
    Header_Values out "x-tag" = ["v0"; "v1"; "v2"]%string /\
    entry out "Accept" = [].
Proof.
  edestruct (sent_headers_exact Mock.newRequest [] [] []
               (Mock.taggedClient [Mock.Ttag]) tt
               (Mock.get "http://example.test") Mock.tagged [])
    as (out & Hprep & Hkeys & Hother);
    [reflexivity | reflexivity | reflexivity | reflexivity | |].
  { apply (bool_decide_unpack _). vm_compute. exact I. }
  eexists _, _, _, out. split; [exact Hprep|]. split.
  - transitivity (Header_Values out "X-Tag"); [reflexivity|].
    rewrite (Hkeys "X-Tag"%string ["v1"; "v2"]%string); [by vm_compute|by vm_compute].
  - rewrite (Hother "Accept"%string); [by vm_compute|].
    intros key [values Hkey].
    assert (Hk : key ∈ ["X-Tag"%string]).
    { assert (Hin : key ∈ (map_to_list
                              (configHeaders
                                 (mergeConfig [] [] Mock.tagged
                                    (config (Mock.taggedClient [Mock.Ttag]))
                                    (Mock.get "http://example.test")).1
                                 (mergeConfig [] [] Mock.tagged
                                    (config (Mock.taggedClient [Mock.Ttag]))
                                    (Mock.get "http://example.test")).2)).*1).
      { apply list_elem_of_fmap. exists (key, values). split; [done|].
        by apply elem_of_map_to_list. }
      vm_compute in Hin. exact Hin. }
    apply list_elem_of_singleton in Hk as ->. by vm_compute.
Defined.

(** ** The error file *)

Section ErrorFacts.
Context {Ctx : Type}.
Variable StatusText : Z -> string.

(** X13. [HandleResponseError] returns no error exactly for a status
    below 400. For a status of 400 or more it always returns a
    [RequestError] with the status, the method and the URL of the request
    of the response and the text of the status; the body of the error is
    the body of the response when it could be read, and is empty when the
    read failed: the read error is dropped, never returned. *)
Theorem HandleResponseError_cases (resp : HttpResponse Ctx) :
  (HandleResponseError StatusText resp = None <-> hr_StatusCode resp < 400) /\
  (400 ≤ hr_StatusCode resp ->
   exists body,
     HandleResponseError StatusText resp
     = Some (ErrRequest
               (mkRequestError (hr_StatusCode resp)
                               (req_Method (hr_Request resp))
                               (req_URL (hr_Request resp))
                               (StatusText (hr_StatusCode resp)) body)) /\
     (bs_err (hr_Body resp) = None ->
      body = string_of_list_byte (bs_data (hr_Body resp))) /\
     (bs_err (hr_Body resp) ≠ None -> body = ""%string)).
Proof.
  unfold HandleResponseError. split.
  - case_decide; split; (done || lia).
  - intros Hcode. rewrite decide_True by done.
    eexists. split; [reflexivity|].
    destruct (bs_err (hr_Body resp)) as [err|], (bs_data (hr_Body resp)); done.
Qed.
End ErrorFacts.

Lemma HandleResponseError_cases_witness :
  exists body,
    HandleResponseError Mock.statusText
      (mkHttpResponse "404 Not Found" 404 ∅
         (mkBodyStream [x6e%byte; x6f%byte] (Some (ErrForeign "unexpected EOF")))
         Mock.plain)
    = Some (ErrRequest
              (mkRequestError 404 "GET" "http://example.test" "Not Found" body)) /\
    body = ""%string.
Proof.
  destruct (HandleResponseError_cases Mock.statusText
              (mkHttpResponse "404 Not Found" 404 ∅
                 (mkBodyStream [x6e%byte; x6f%byte]
                               (Some (ErrForeign "unexpected EOF")))
                 Mock.plain)) as [_ H].
  destruct H as (body & Hres & _ & Hfailed); [by vm_compute|].
  exists body. split; [exact Hres|]. apply Hfailed. discriminate.
Defined.

Lemma string_app_assoc (s1 s2 s3 : string) :
  ((s1 +:+ s2) +:+ s3 = s1 +:+ (s2 +:+ s3))%string.
Proof.
  induction s1 as [|a s1 IH]; [done|].
  change (String a ((s1 +:+ s2) +:+ s3) = String a (s1 +:+ (s2 +:+ s3)))%string.
  by f_equal.
Qed.

Lemma occursIn_here sub after : occursIn sub (sub +:+ after).
Proof. by exists ""%string, after. Qed.

Lemma occursIn_end sub : occursIn sub sub.
Proof.
  exists ""%string, ""%string.
  change (sub = sub +:+ "")%string.
  induction sub as [|a sub IH]; [done|].
  change (String a sub = String a (sub +:+ ""))%string. by f_equal.
Qed.

Lemma occursIn_after before sub s :
  occursIn sub s -> occursIn sub (before +:+ s).
Proof.
  intros (x & y & ->). exists (before +:+ x)%string, y.
  by rewrite string_app_assoc.
Qed.

(** X14. The message of a [RequestError] shows its method, its URL, the
    status code in decimal, the status text and the body. The message of
    an error that wraps another one shows the whole message of its cause,
    and the message of a stage error shows the index of the interceptor
    in decimal. *)
Theorem error_messages_show_their_parts :
  (forall e,
      let msg := Error (ErrRequest e) in
      occursIn (re_Method e) msg /\ occursIn (re_URL e) msg /\
      occursIn (pretty (re_StatusCode e)) msg /\
      occursIn (re_Message e) msg /\ occursIn (re_Body e) msg) /\
  (forall e cause, Unwrap e = Some cause -> occursIn (Error cause) (Error e)) /\
  (forall stage idx cause,
      occursIn (pretty idx) (Error (ErrorfIdx stage idx cause))).
Proof.
  split; [|split].
  - intros e. cbn [Error]. unfold RequestError_Error.
    repeat split;
      repeat (first [apply occursIn_here | apply occursIn_end | apply occursIn_after]).
  - intros e cause. destruct e as [msg|r|context c|stage idx c]; try done;
      intros [= ->]; cbn [Error];
      repeat (first [apply occursIn_end | apply occursIn_after]).
  - intros stage idx cause. cbn [Error].
    repeat (first [apply occursIn_here | apply occursIn_after]).
Qed.

Lemma error_messages_show_their_parts_witness :
  occursIn "boom"
    (Error (Errorf "applying request interceptors"
                   (ErrorfIdx "request" 0 (ErrForeign "boom")))).
Proof.
  destruct error_messages_show_their_parts as (_ & Hcause & _).
  destruct (Hcause (ErrorfIdx "request" 0 (ErrForeign "boom")) (ErrForeign "boom")
                   eq_refl) as (b1 & a1 & H1).
  destruct (Hcause (Errorf "applying request interceptors"
                           (ErrorfIdx "request" 0 (ErrForeign "boom")))
                   (ErrorfIdx "request" 0 (ErrForeign "boom")) eq_refl)
    as (b2 & a2 & H2).
  exists (b2 +:+ b1)%string, (a1 +:+ a2)%string.
  rewrite H2, H1. cbn [Error].
  by rewrite !string_app_assoc.
Defined.

(** ** client.go: the transport and the timeout *)

(** X15. [defaultTransport] uses the five default values only when it
    is given no options. Options that are given are taken whole, a field
    left at zero included: the transport built from them is the default
    transport exactly when they are the five default values. *)
Theorem defaultTransport_takes_options_whole :
  defaultTransport None
  = mkHttpTransport 100 90000000000 100 10000000000 1000000000 /\
  (forall opts,
      defaultTransport (Some opts)
      = mkHttpTransport (MaxIdleConns opts) (IdleConnTimeout opts)
                        (MaxIdleConnsPerHost opts) (TLSHandshakeTimeout opts)
                        (ExpectContinue opts)) /\
  (forall opts,
      defaultTransport (Some opts) = defaultTransport None <->
      opts = defaultOptions).
Proof.
  split; [done|]. split; [done|].
  intros [a b c d e]. unfold defaultTransport. cbn. split.
  - by intros [= -> -> -> -> ->].
  - by intros [= -> -> -> -> ->].
Qed.

Lemma wrap64_small z : - 2 ^ 63 ≤ z < 2 ^ 63 -> wrap64 z = z.
Proof. intros Hz. unfold wrap64. rewrite Z.mod_small; lia. Qed.

Lemma wrap64_range z : - 2 ^ 63 ≤ wrap64 z < 2 ^ 63.
Proof.
  unfold wrap64. pose proof (Z.mod_pos_bound (z + 2 ^ 63) (2 ^ 64)). lia.
Qed.

(** X16. The timeout that [NewClient] gives the client is the configured
    number of seconds, in nanoseconds, for every number of seconds up to
    9223372036 in absolute value; 0 gives 0, which is no timeout. A larger
    number overflows the 64-bit product: the timeout is then not that
    number of seconds. *)
Theorem NewClient_Timeout_seconds cfg :
  (- 9223372036 ≤ Timeout cfg ≤ 9223372036 ->
   NewClient_Timeout cfg = Timeout cfg * Second /\
   (Timeout cfg = 0 <-> NewClient_Timeout cfg = 0)) /\
  (9223372036 < Timeout cfg -> NewClient_Timeout cfg ≠ Timeout cfg * Second).
Proof.
  unfold NewClient_Timeout, Second. split.
  - intros Ht. rewrite wrap64_small by lia. split; [done|lia].
  - intros Ht Heq.
    pose proof (wrap64_range (Timeout cfg * 1000000000)) as Hr. lia.
Qed.

Lemma NewClient_Timeout_seconds_witness :
  NewClient_Timeout (mkConfig "" "" None None None 15) = 15 * Second /\
  NewClient_Timeout (mkConfig "" "" None None None 9223372037)
  ≠ 9223372037 * Second.
Proof.
  split.
  - apply (NewClient_Timeout_seconds (mkConfig "" "" None None None 15)).
    cbn. lia.
  - apply (NewClient_Timeout_seconds (mkConfig "" "" None None None 9223372037)).
    cbn. lia.
Defined.

(** The options of the test of [NewClient] set two fields: the other
    three stay at zero, and the transport is not the default one. *)
Lemma defaultTransport_takes_options_whole_witness :
  defaultTransport (Some defaultOptions) = defaultTransport None /\
  tr_MaxIdleConnsPerHost
    (defaultTransport (Some (mkTransportOptions 10 (30 * Second) 0 0 0))) = 0.
Proof.
  destruct defaultTransport_takes_options_whole as (_ & Hcopy & Hiff).
  split.
  - apply Hiff. reflexivity.
  - rewrite Hcopy. reflexivity.
Defined.
